(** * The bs (big-sibling) sidecar manager of tsuru, [provision/docker/bs/bs.go]

    A shallow embedding of the Go package [bs] and the properties of its
    environment resolver, token provider, image resolver, node deployer and
    cluster orchestrator.

    Conventions of the embedding.
    - Go [string] is [string]; Go [int] is [Z]; slices are lists.
    - Go maps ([EnvMap], [PoolEnvMap]) are [gmap]s.  The maps handed to
      [UpdateEnvMaps] are allocated maps, as at every call site of the
      package ([EnvMap{}], [PoolEnvMap{}]); a pool without an entry in the
      [PoolEnvMap] is the [nil] the code tests for.  Distinct keys of a
      [PoolEnvMap] hold distinct map objects.
    - Everything outside the package (MongoDB through mgo, the auth scheme,
      the docker client, the cluster, the logger, tsuru's config file) is
      part of a [World]: the persisted record, the trace of calls made so
      far, and the answers of the outside, which may depend on that trace.
    - The goroutines of [RecreateContainers] run to completion one after
      the other, in an order the scheduler is free to pick. *)

From stdpp Require Import gmap strings list fin_maps pretty.
From Stdlib Require Import ZArith Ascii.

Open Scope string_scope.
Open Scope list_scope.

(** ** Go's [strings] functions used by the package *)

Module GoStrings.

(** [strings.HasPrefix] *)
Definition HasPrefix (s pre : string) : bool := String.prefix pre s.

(** [s[n:]], clipped at the end of [s]. *)
Fixpoint dropBytes (n : nat) (s : string) : string :=
  match n, s with
  | S n', String _ s' => dropBytes n' s'
  | _, _ => s
  end.

(** [strings.Cut(s, sep)] for a non-empty [sep]: the text before and after
    the first occurrence of [sep], or [None] when [strings.Index] is [-1]. *)
Fixpoint Cut (s sep : string) : option (string * string) :=
  if String.prefix sep s then Some ("", dropBytes (String.length sep) s)
  else match s with
       | EmptyString => None
       | String c s' =>
           match Cut s' sep with
           | Some (a, b) => Some (String c a, b)
           | None => None
           end
       end.

(** [strings.SplitN(s, sep, n)] for a non-empty [sep] and [n >= 0]: at most
    [n] pieces, the last one being the unsplit remainder ([genSplit]). *)
Fixpoint SplitN (s sep : string) (n : nat) : list string :=
  match n with
  | O => []
  | S O => [s]
  | S n' =>
      match Cut s sep with
      | Some (a, b) => a :: SplitN b sep n'
      | None => [s]
      end
  end.

(** [strings.Split(s, sep)], that is [SplitN] with no limit: a string of
    length [k] has at most [k + 1] pieces. *)
Definition Split (s sep : string) : list string :=
  SplitN s sep (S (String.length s)).

(** [strings.Contains] for a non-empty [sep]. *)
Definition Contains (s sep : string) : bool :=
  match Cut s sep with Some _ => true | None => false end.

(** [strings.Count] of a one-byte separator. *)
Fixpoint Count (s : string) (c : ascii) : nat :=
  match s with
  | EmptyString => 0
  | String c' s' => (if decide (c' = c) then 1 else 0) + Count s' c
  end.

(** Dropping the trailing run of byte [c], on the reversed string. *)
Fixpoint dropLeading (c : ascii) (s : string) : string :=
  match s with
  | String c' s' => if decide (c' = c) then dropLeading c s' else s
  | EmptyString => EmptyString
  end.

(** [strings.TrimRight(s, cutset)] for a one-byte [cutset]. *)
Definition TrimRight (s : string) (c : ascii) : string :=
  String.rev (dropLeading c (String.rev s)).

(** [strconv.Itoa] *)
Definition Itoa (n : Z) : string := pretty n.

End GoStrings.

Import GoStrings.

(** ** Data model *)

(** [type Env struct { Name, Value string }] *)
Record Env := { Name : string; Value : string }.

(** [type PoolEnvs struct { Name string; Envs []Env }] *)
Record PoolEnvs := { pool_Name : string; pool_Envs : list Env }.

(** [type Config struct]; [ID] is the bson [_id]. *)
Record Config := {
  ID : string;
  Image : string;
  Token : string;
  Envs : list Env;
  Pools : list PoolEnvs
}.

#[global] Instance Env_eq_dec : EqDecision Env.
Proof. solve_decision. Defined.
#[global] Instance PoolEnvs_eq_dec : EqDecision PoolEnvs.
Proof. solve_decision. Defined.

(** [type EnvMap map[string]string] and [type PoolEnvMap map[string]EnvMap] *)
Abbreviation EnvMap := (gmap string string).
Abbreviation PoolEnvMap := (gmap string (gmap string string)).

(** Go [error] values, as far as the package tells them apart:
    [mgo.ErrNotFound]; an error for which [mgo.IsDup] holds;
    [docker.ErrContainerAlreadyExists]; and any other error, known by its
    text (those of [fmt.Errorf] and [errors.New] among them). *)
Inductive error :=
| ErrNotFound
| ErrDup (msg : string)
| ErrContainerAlreadyExists
| ErrText (msg : string).

#[global] Instance error_eq_dec : EqDecision error.
Proof. solve_decision. Defined.

(** [mgo.IsDup] *)
Definition IsDup (e : error) : bool :=
  match e with ErrDup _ => true | _ => false end.


(** ** [UpdateEnvMaps] *)

(** The [forbiddenList] literal of [UpdateEnvMaps]. *)
Definition forbiddenList : gmap string bool :=
  {[ "DOCKER_ENDPOINT" := true;
     "TSURU_ENDPOINT" := true;
     "SYSLOG_LISTEN_ADDRESS" := true;
     "TSURU_TOKEN" := true ]}.

(** [forbiddenList[name]]: a missing key reads as [false]. *)
Definition forbidden (name : string) : bool :=
  default false (forbiddenList !! name).

(** The body shared by both loops after the forbidden test:
    [if env.Value == "" { delete(m, env.Name) } else { m[env.Name] = env.Value }] *)
Definition setEnv (env : Env) (m : EnvMap) : EnvMap :=
  if decide (Value env = "") then delete (Name env) m
  else <[Name env := Value env]> m.

(** [fmt.Errorf("cannot set %s variable", env.Name)] *)
Definition cannotSet (name : string) : error :=
  ErrText ("cannot set " +:+ name +:+ " variable").

(** First loop: [for _, env := range conf.Envs], on [envMap]. *)
Fixpoint updateGlobal (envs : list Env) (envMap : EnvMap)
  : option error * EnvMap :=
  match envs with
  | [] => (None, envMap)
  | env :: rest =>
      if forbidden (Name env) then (Some (cannotSet (Name env)), envMap)
      else updateGlobal rest (setEnv env envMap)
  end.

(** Inner loop of the second: [for _, env := range p.Envs], which mutates
    the map stored under [poolEnvMap[p.Name]]. *)
Fixpoint updatePool (pname : string) (envs : list Env) (poolEnvMap : PoolEnvMap)
  : option error * PoolEnvMap :=
  match envs with
  | [] => (None, poolEnvMap)
  | env :: rest =>
      if forbidden (Name env) then (Some (cannotSet (Name env)), poolEnvMap)
      else updatePool pname rest (alter (setEnv env) pname poolEnvMap)
  end.

(** [if poolEnvMap[p.Name] == nil { poolEnvMap[p.Name] = make(EnvMap) }] *)
Definition ensurePool (pname : string) (poolEnvMap : PoolEnvMap) : PoolEnvMap :=
  match poolEnvMap !! pname with
  | None => <[pname := ∅]> poolEnvMap
  | Some _ => poolEnvMap
  end.

(** Second loop: [for _, p := range conf.Pools]. *)
Fixpoint updatePools (pools : list PoolEnvs) (poolEnvMap : PoolEnvMap)
  : option error * PoolEnvMap :=
  match pools with
  | [] => (None, poolEnvMap)
  | p :: rest =>
      match updatePool (pool_Name p) (pool_Envs p)
                       (ensurePool (pool_Name p) poolEnvMap) with
      | (Some e, pm) => (Some e, pm)
      | (None, pm) => updatePools rest pm
      end
  end.

(** [func (conf *Config) UpdateEnvMaps(envMap EnvMap, poolEnvMap PoolEnvMap) error].
    The maps are mutated in place, so the caller sees them as they are when
    the function returns, also when it returns an error. *)
Definition UpdateEnvMaps (conf : Config) (envMap : EnvMap) (poolEnvMap : PoolEnvMap)
  : option error * EnvMap * PoolEnvMap :=
  match updateGlobal (Envs conf) envMap with
  | (Some e, m) => (Some e, m, poolEnvMap)
  | (None, m) =>
      let '(err, pm) := updatePools (Pools conf) poolEnvMap in (err, m, pm)
  end.

(** ** Image pinning *)

(** [func shouldPinBsImage(image string) bool] *)
Definition shouldPinBsImage (image : string) : bool :=
  let parts := SplitN image "/" 3 in
  let lastPart := List.last parts "" in
  bool_decide (List.length (SplitN lastPart ":" 2) < 2).


(** [digestRegexp]: the pattern is [^Digest: ], then one group capturing
    any run of [.], then [$], under the flag [m].  With that flag [^] and
    [$] match at the boundaries of every line, and [.] never matches a
    newline: a match is a whole line starting with [Digest: ], and its
    group 1 is the rest of that line. *)
Definition newline : string := String "010"%char EmptyString.

Definition digestLine (line : string) : option (list string) :=
  if HasPrefix line "Digest: " then Some [line; dropBytes 8 line] else None.

(** [digestRegexp.FindAllStringSubmatch(s, n)] for [n >= 0]: the successive
    matches from the left, at most [n] of them. *)
Definition digestRegexp_FindAllStringSubmatch (s : string) (n : nat)
  : list (list string) :=
  take n (omap digestLine (Split s newline)).

(** [if shouldPinBsImage(image) { match := ...; if len(match) > 0 { image += "@" + match[0][1] } }] *)
Definition pinImage (image output : string) : string :=
  if shouldPinBsImage image then
    match digestRegexp_FindAllStringSubmatch output 1 with
    | m :: _ => image +:+ "@" +:+ nth 1 m ""
    | [] => image
    end
  else image.

(** ** The world outside the package *)

Inductive result (A : Type) :=
| Ok (a : A)
| Fail (e : error).
Arguments Ok {A} a.
Arguments Fail {A} e.

(** The record of collection [bsconfig] whose [_id] is [bsUniqueID]; a
    field may be missing from the stored document. *)
Record Doc := {
  doc_image : option string;
  doc_token : option string;
  doc_envs : option (list Env);
  doc_pools : option (list PoolEnvs)
}.

Definition emptyDoc : Doc :=
  {| doc_image := None; doc_token := None; doc_envs := None; doc_pools := None |}.

(** One key of a [bson.M{"$set": bson.M{...}}] update document. *)
Inductive update :=
| SetImage (v : string)
| SetToken (v : string)
| SetEnvs (v : list Env)
| SetPools (v : list PoolEnvs).

(** One alternative of the [$or] of a selector:
    [{"token": v}] and [{"token": {"$exists": b}}]. *)
Inductive cond :=
| TokenIs (v : string)
| TokenExists (b : bool).

(** MongoDB's [$set]: the named field is written, the others are kept. *)
Definition applyUpdate (d : Doc) (u : update) : Doc :=
  match u with
  | SetImage v =>
      {| doc_image := Some v; doc_token := doc_token d;
         doc_envs := doc_envs d; doc_pools := doc_pools d |}
  | SetToken v =>
      {| doc_image := doc_image d; doc_token := Some v;
         doc_envs := doc_envs d; doc_pools := doc_pools d |}
  | SetEnvs v =>
      {| doc_image := doc_image d; doc_token := doc_token d;
         doc_envs := Some v; doc_pools := doc_pools d |}
  | SetPools v =>
      {| doc_image := doc_image d; doc_token := doc_token d;
         doc_envs := doc_envs d; doc_pools := Some v |}
  end.

Definition applyUpdates (us : list update) (d : Doc) : Doc :=
  foldl applyUpdate d us.

Definition condHolds (d : Doc) (c : cond) : bool :=
  match c with
  | TokenIs v => bool_decide (doc_token d = Some v)
  | TokenExists b => Bool.eqb (bool_decide (is_Some (doc_token d))) b
  end.

(** What [FindId(bsUniqueID).One(conf)] leaves in [*conf]: bson unmarshals
    into a zeroed struct, so a missing field reads as the zero value. *)
Definition docToConfig (d : Doc) : Config :=
  {| ID := "bs";
     Image := default "" (doc_image d);
     Token := default "" (doc_token d);
     Envs := default [] (doc_envs d);
     Pools := default [] (doc_pools d) |}.

(** [docker.HostConfig], [docker.CreateContainerOptions] (with the fields of
    its [docker.Config] that the package sets) and [cluster.Node]. *)
Record HostConfig := {
  RestartPolicy : string;
  Privileged : bool;
  NetworkMode : string;
  Binds : list string
}.

Record CreateContainerOptions := {
  opts_Name : string;
  opts_HostConfig : HostConfig;
  opts_Image : string;
  opts_Env : list string
}.

Record Node := { Address : string; Metadata : gmap string string }.

(** The calls that leave the package. *)
Inductive event :=
| EvDbConn
| EvDbClose
| EvAppLogin (appName : string)
| EvLogout (token : string)
| EvUpsert (selector : list cond) (set : list update)
| EvUpsertId (set : list update)
| EvFindId
| EvPullImage (endpoint repository : string)
| EvCreateContainer (endpoint : string) (opts : CreateContainerOptions)
| EvRemoveContainer (endpoint id : string) (force : bool)
| EvStartContainer (endpoint id : string) (hostConfig : HostConfig)
| EvUnfilteredNodes
| EvLogDebug (msg : string)
| EvLogError (msg : string).

(** The answers of the outside.  Each may depend on the calls made so far.
    [o_storeFault] is a failure of the storage layer itself (the operation
    then changes nothing); [o_range] is the order in which Go's [range]
    walks the entries of a map, [o_schedule] the order in which the
    scheduler runs the goroutines it is given. *)
Record Outside := {
  o_strings : gmap string string;
  o_ints : gmap string Z;
  o_InternalAppName : string;
  o_dbConn : list event -> option error;
  o_storeFault : list event -> option error;
  o_appLogin : list event -> result string;
  o_newClient : string -> option error;
  o_pullImage : list event -> result string;
  o_createContainer : list event -> result string;
  o_removeContainer : list event -> option error;
  o_startContainer : list event -> option error;
  o_unfilteredNodes : list event -> result (list Node);
  o_range : forall A : Type, list (string * A) -> list (string * A);
  o_schedule : list nat -> list nat
}.

Record World := {
  outside : Outside;
  store : option Doc;
  trace : list event
}.

Definition record (e : event) (w : World) : World :=
  {| outside := outside w; store := store w; trace := trace w ++ [e] |}.

Definition setStore (d : Doc) (w : World) : World :=
  {| outside := outside w; store := Some d; trace := trace w |}.

(** Go's [range] and the scheduler permute, they neither drop nor invent. *)
Definition fairOutside (o : Outside) : Prop :=
  (forall A (l : list (string * A)), o_range o A l ≡ₚ l) /\
  (forall l : list nat, o_schedule o l ≡ₚ l).

(** ** State passing *)

Definition M (A : Type) : Type := World -> A * World.

Definition ret {A} (a : A) : M A := fun w => (a, w).

Definition bind {A B} (m : M A) (k : A -> M B) : M B :=
  fun w => let '(a, w') := m w in k a w'.

Notation "'do' x <- m ; k" := (bind m (fun x => k))
  (at level 10, x pattern, m at level 100, k at level 200).

(** [config.GetString(key)] and [config.GetInt(key)] with the error dropped,
    as everywhere in the package: an unset key reads as the zero value. *)
Definition config_GetString (key : string) : M string :=
  fun w => (default "" (o_strings (outside w) !! key), w).

Definition config_GetInt (key : string) : M Z :=
  fun w => (default 0%Z (o_ints (outside w) !! key), w).

Definition log_Debugf (msg : string) : M unit :=
  fun w => (tt, record (EvLogDebug msg) w).

Definition log_Error (msg : string) : M unit :=
  fun w => (tt, record (EvLogError msg) w).

(** [for k, v := range m] *)
Definition rangeMap {A} (m : gmap string A) : M (list (string * A)) :=
  fun w => (o_range (outside w) A (map_to_list m), w).

(** *** Storage: [db.Conn], [storage.Collection] *)

(** [func collection()]: [db.Conn()], then the collection [bsconfig]. *)
Definition collection : M (option error) :=
  fun w => (o_dbConn (outside w) (trace w), record EvDbConn w).

Definition coll_Close : M unit :=
  fun w => (tt, record EvDbClose w).

(** [coll.Upsert(bson.M{"_id": bsUniqueID, "$or": selector}, bson.M{"$set": set})]:
    a stored record that satisfies the selector is updated; otherwise the
    document is inserted, which fails on the unique [_id] when the record
    exists. *)
Definition coll_Upsert (selector : list cond) (set : list update) : M (option error) :=
  fun w =>
    let w' := record (EvUpsert selector set) w in
    match o_storeFault (outside w) (trace w) with
    | Some e => (Some e, w')
    | None =>
        match store w with
        | Some d =>
            if existsb (condHolds d) selector
            then (None, setStore (applyUpdates set d) w')
            else (Some (ErrDup "E11000 duplicate key error"), w')
        | None => (None, setStore (applyUpdates set emptyDoc) w')
        end
    end.

(** [coll.UpsertId(bsUniqueID, bson.M{"$set": set})] *)
Definition coll_UpsertId (set : list update) : M (option error) :=
  fun w =>
    let w' := record (EvUpsertId set) w in
    match o_storeFault (outside w) (trace w) with
    | Some e => (Some e, w')
    | None => (None, setStore (applyUpdates set (default emptyDoc (store w))) w')
    end.

(** [coll.FindId(bsUniqueID).One(&config)] *)
Definition coll_FindId_One : M (result Config) :=
  fun w =>
    let w' := record EvFindId w in
    match o_storeFault (outside w) (trace w) with
    | Some e => (Fail e, w')
    | None =>
        match store w with
        | Some d => (Ok (docToConfig d), w')
        | None => (Fail ErrNotFound, w')
        end
    end.

(** *** Authentication: [app.AuthScheme] *)

Definition AppLogin (appName : string) : M (result string) :=
  fun w => (o_appLogin (outside w) (trace w), record (EvAppLogin appName) w).

(** [app.InternalAppName] *)
Definition app_InternalAppName : M string :=
  fun w => (o_InternalAppName (outside w), w).

(** The result of [Logout] is dropped by its only caller. *)
Definition Logout (token : string) : M unit :=
  fun w => (tt, record (EvLogout token) w).

(** *** The docker client and the cluster *)

Definition docker_NewClient (endpoint : string) : M (option error) :=
  fun w => (o_newClient (outside w) endpoint, w).

(** [client.PullImage(pullOpts, auth)]; on success the text written to
    [pullOpts.OutputStream]. *)
Definition client_PullImage (endpoint repository : string) : M (result string) :=
  fun w => (o_pullImage (outside w) (trace w),
            record (EvPullImage endpoint repository) w).

(** [client.CreateContainer(opts)]; on success [container.ID]. *)
Definition client_CreateContainer (endpoint : string) (opts : CreateContainerOptions)
  : M (result string) :=
  fun w => (o_createContainer (outside w) (trace w),
            record (EvCreateContainer endpoint opts) w).

Definition client_RemoveContainer (endpoint id : string) (force : bool)
  : M (option error) :=
  fun w => (o_removeContainer (outside w) (trace w),
            record (EvRemoveContainer endpoint id force) w).

Definition client_StartContainer (endpoint id : string) (hc : HostConfig)
  : M (option error) :=
  fun w => (o_startContainer (outside w) (trace w),
            record (EvStartContainer endpoint id hc) w).

Definition cluster_UnfilteredNodes : M (result (list Node)) :=
  fun w => (o_unfilteredNodes (outside w) (trace w), record EvUnfilteredNodes w).

(** ** The package's functions *)

Definition bsUniqueID : string := "bs".

(** [fmt.Sprintf("%s=%s", envName, envValue)] *)
Definition envEntry (kv : string * string) : string :=
  fst kv +:+ "=" +:+ snd kv.

(** [func (conf *Config) getImage() string] *)
Definition getImage (conf : Config) : M string :=
  if decide (Image conf ≠ "") then ret (Image conf)
  else
    do bsImage <- config_GetString "docker:bs:image";
    ret (if decide (bsImage = "") then "tsuru/bs" else bsImage).

(** [func SysLogPort() int] *)
Definition SysLogPort : M Z :=
  do bsPort <- config_GetInt "docker:bs:syslog-port";
  ret (if decide (bsPort = 0%Z) then 1514%Z else bsPort).

(** The selector of [getToken]'s upsert:
    ["$or": []bson.M{{"token": ""}, {"token": bson.M{"$exists": false}}}] *)
Definition tokenUnset : list cond := [TokenIs ""; TokenExists false].

Definition withToken (conf : Config) (token : string) : Config :=
  {| ID := ID conf; Image := Image conf; Token := token;
     Envs := Envs conf; Pools := Pools conf |}.

(** [func (conf *Config) getToken() (string, error)].  The receiver is a
    pointer and the function writes through it, so the configuration is
    returned next to the result.  [defer coll.Close()] runs on every exit
    after [collection()] has succeeded. *)
Definition getToken (conf : Config) : M (result string * Config) :=
  if decide (Token conf ≠ "") then ret (Ok (Token conf), conf)
  else
    do err <- collection;
    match err with
    | Some e => ret (Fail e, conf)
    | None =>
        do r <-
          (do appName <- app_InternalAppName;
           do tokenData <- AppLogin appName;
           match tokenData with
           | Fail e => ret (Fail e, conf)
           | Ok token =>
               do err <- coll_Upsert tokenUnset [SetToken token];
               match err with
               | None => ret (Ok token, withToken conf token)
               | Some e =>
                   do _ <- Logout token;
                   if negb (IsDup e) then ret (Fail e, conf)
                   else
                     do found <- coll_FindId_One;
                     match found with
                     | Fail e' => ret (Fail e', conf)
                     | Ok conf' => ret (Ok (Token conf'), conf')
                     end
               end
           end);
        do _ <- coll_Close;
        ret r
    end.

(** [func (conf *Config) EnvListForEndpoint(dockerEndpoint, poolName string) ([]string, error)] *)
Definition EnvListForEndpoint (conf : Config) (dockerEndpoint poolName : string)
  : M (result (list string) * Config) :=
  do host <- config_GetString "host";
  let tsuruEndpoint :=
    if negb (HasPrefix host "http://") && negb (HasPrefix host "https://")
    then "http://" +:+ host else host in
  let tsuruEndpoint := TrimRight tsuruEndpoint "/" +:+ "/" in
  do socket <- config_GetString "docker:bs:socket";
  let endpoint :=
    if decide (socket ≠ "") then "unix:///var/run/docker.sock" else dockerEndpoint in
  do tc <- getToken conf;
  match tc with
  | (Fail e, conf) => ret (Fail e, conf)
  | (Ok token, conf) =>
      do port <- SysLogPort;
      let envList :=
        [ "DOCKER_ENDPOINT=" +:+ endpoint;
          "TSURU_ENDPOINT=" +:+ tsuruEndpoint;
          "TSURU_TOKEN=" +:+ token;
          "SYSLOG_LISTEN_ADDRESS=udp://0.0.0.0:" +:+ Itoa port ] in
      match UpdateEnvMaps conf ∅ ∅ with
      | (Some e, _, _) => ret (Fail e, conf)
      | (None, envMap, poolEnvMap) =>
          do globals <- rangeMap envMap;
          let envList := envList ++ map envEntry globals in
          do locals <- rangeMap (default ∅ (poolEnvMap !! poolName));
          let envList := envList ++ map envEntry locals in
          ret (Ok envList, conf)
      end
  end.

Definition toEnv (kv : string * string) : Env :=
  {| Name := fst kv; Value := snd kv |}.

Fixpoint mapM {A B} (f : A -> M B) (l : list A) : M (list B) :=
  match l with
  | [] => ret []
  | a :: l' => do b <- f a; do bs <- mapM f l'; ret (b :: bs)
  end.

(** [func bsConfigFromEnvMaps(envMap EnvMap, poolEnvMap PoolEnvMap) *Config] *)
Definition bsConfigFromEnvMaps (envMap : EnvMap) (poolEnvMap : PoolEnvMap) : M Config :=
  do globals <- rangeMap envMap;
  do pools <- rangeMap poolEnvMap;
  do poolEnvs <-
    mapM (fun p : string * EnvMap =>
            do es <- rangeMap (snd p);
            ret {| pool_Name := fst p; pool_Envs := map toEnv es |}) pools;
  ret {| ID := ""; Image := ""; Token := "";
         Envs := map toEnv globals; Pools := poolEnvs |}.

(** [func SaveImage(digest string) error] *)
Definition SaveImage (digest : string) : M (option error) :=
  do err <- collection;
  match err with
  | Some e => ret (Some e)
  | None =>
      do err <- coll_UpsertId [SetImage digest];
      do _ <- coll_Close;
      ret err
  end.

(** [func SaveEnvs(envMap EnvMap, poolEnvMap PoolEnvMap) error] *)
Definition SaveEnvs (envMap : EnvMap) (poolEnvMap : PoolEnvMap) : M (option error) :=
  do finalConf <- bsConfigFromEnvMaps envMap poolEnvMap;
  do err <- collection;
  match err with
  | Some e => ret (Some e)
  | None =>
      do err <- coll_UpsertId [SetEnvs (Envs finalConf); SetPools (Pools finalConf)];
      do _ <- coll_Close;
      ret err
  end.

(** [func LoadConfig()], returning the loaded [Config] or an error. *)
Definition LoadConfig : M (result Config) :=
  do err <- collection;
  match err with
  | Some e => ret (Fail e)
  | None =>
      do found <- coll_FindId_One;
      do _ <- coll_Close;
      ret found
  end.

(** [func pullBsImage(image, dockerEndpoint string, p DockerProvisioner) error] *)
Definition pullBsImage (image dockerEndpoint : string) : M (option error) :=
  do err <- docker_NewClient dockerEndpoint;
  match err with
  | Some e => ret (Some e)
  | None =>
      do pulled <- client_PullImage dockerEndpoint image;
      match pulled with
      | Fail e => ret (Some e)
      | Ok output => SaveImage (pinImage image output)
      end
  end.

(** [err == docker.ErrContainerAlreadyExists] *)
Definition alreadyExists {A} (r : result A) : bool :=
  match r with Fail ErrContainerAlreadyExists => true | _ => false end.

Definition emptyConfig : Config :=
  {| ID := ""; Image := ""; Token := ""; Envs := []; Pools := [] |}.

(** [func CreateContainer(dockerEndpoint, poolName string, p DockerProvisioner, relaunch bool) error] *)
Definition CreateContainer (dockerEndpoint poolName : string) (relaunch : bool)
  : M (option error) :=
  do err <- docker_NewClient dockerEndpoint;
  match err with
  | Some e => ret (Some e)
  | None =>
      do loaded <- LoadConfig;
      match
        match loaded with
        | Ok c => Ok c
        | Fail e => if decide (e ≠ ErrNotFound) then Fail e else Ok emptyConfig
        end
      with
      | Fail e => ret (Some e)
      | Ok bsConf =>
          do bsImage <- getImage bsConf;
          do err <- pullBsImage bsImage dockerEndpoint;
          match err with
          | Some e => ret (Some e)
          | None =>
              do socket <- config_GetString "docker:bs:socket";
              let hostConfig :=
                {| RestartPolicy := "always"; Privileged := true;
                   NetworkMode := "host";
                   Binds := if decide (socket ≠ "")
                            then [socket +:+ ":/var/run/docker.sock:rw"] else [] |} in
              do envs <- EnvListForEndpoint bsConf dockerEndpoint poolName;
              match fst envs with
              | Fail e => ret (Some e)
              | Ok env =>
                  let opts :=
                    {| opts_Name := "big-sibling"; opts_HostConfig := hostConfig;
                       opts_Image := bsImage; opts_Env := env |} in
                  do created <- client_CreateContainer dockerEndpoint opts;
                  do created <-
                    (if relaunch && alreadyExists created
                     then
                       do err <- client_RemoveContainer dockerEndpoint (opts_Name opts) true;
                       match err with
                       | Some e => ret (inl e)
                       | None =>
                           do again <- client_CreateContainer dockerEndpoint opts;
                           ret (inr again)
                       end
                     else ret (inr created));
                  match created with
                  | inl e => ret (Some e)
                  | inr (Fail e) => ret (Some e)
                  | inr (Ok id) => client_StartContainer dockerEndpoint id hostConfig
                  end
              end
          end
      end
  end.



Definition schedule (goroutines : list nat) : M (list nat) :=
  fun w => (o_schedule (outside w) goroutines, w).


(** ** Vocabulary of the properties *)

(** The four names the system computes itself. *)
Definition reservedKeys : list string :=
  ["DOCKER_ENDPOINT"; "TSURU_ENDPOINT"; "TSURU_TOKEN"; "SYSLOG_LISTEN_ADDRESS"].

(** The name of a [NAME=VALUE] entry: the text before its first [=]. *)
Definition entryName (entry : string) : string :=
  match Cut entry "=" with
  | Some (name, _) => name
  | None => entry
  end.

(** How many entries of an environment list are for [key]. *)
Definition entriesFor (key : string) (envList : list string) : nat :=
  List.length (filter (fun entry => entryName entry = key) envList).

(** Every entry of a patch, in the order [UpdateEnvMaps] walks them: the
    global ones, then those of each pool. *)
Definition patchEnvs (conf : Config) : list Env :=
  Envs conf ++ concat (map pool_Envs (Pools conf)).

Definition hasForbidden (conf : Config) : bool :=
  existsb (fun env => forbidden (Name env)) (patchEnvs conf).

(** The first forbidden entry of a patch, if it has one. *)
Definition firstForbidden (conf : Config) : option Env :=
  find (fun env => forbidden (Name env)) (patchEnvs conf).

(** The trailing path segment of an image reference: what follows its last
    [/], the whole reference when it has none. *)
Definition trailingSegment (image : string) : string :=
  List.last (Split image "/") "".

(** The path components of a reference between its first one, which may
    name a registry host with its port, and its trailing one, which may
    carry a tag or a digest. *)
Definition middleComponents (image : string) : list string :=
  removelast (tail (Split image "/")).

(** The shape of an image reference, as far as [:] goes: a [:] stands in
    the first component ([host:port]) or in the trailing one ([name:tag],
    [name@sha256:...]), never in a component in between.  The docker daemon
    refuses any other string, and [pullBsImage] asks [shouldPinBsImage]
    only about a string the daemon has just pulled. *)
Definition referenceShaped (image : string) : bool :=
  forallb (fun component => negb (Contains component ":")) (middleComponents image).

(** The value of the last line of a pull output that reads [Digest: value]. *)
Definition lastDigest (output : string) : option string :=
  last (omap (fun line => if HasPrefix line "Digest: "
                          then Some (dropBytes 8 line) else None)
             (Split output newline)).

(** The value of the first such line. *)
Definition firstDigest (output : string) : option string :=
  head (omap (fun line => if HasPrefix line "Digest: "
                          then Some (dropBytes 8 line) else None)
             (Split output newline)).







(** Whether an entry of a patch uses a forbidden name. *)
Definition forbiddenEnv (env : Env) : bool := forbidden (Name env).

(** The entries of a list before its first forbidden one. *)
Fixpoint cutEnvs (envs : list Env) : list Env :=
  match envs with
  | [] => []
  | env :: rest => if forbiddenEnv env then [] else env :: cutEnvs rest
  end.

(** The pools of a patch up to the one holding the first forbidden entry,
    that pool keeping its entries before that one. *)
Fixpoint cutPools (pools : list PoolEnvs) : list PoolEnvs :=
  match pools with
  | [] => []
  | p :: rest =>
      if existsb forbiddenEnv (pool_Envs p)
      then [{| pool_Name := pool_Name p; pool_Envs := cutEnvs (pool_Envs p) |}]
      else p :: cutPools rest
  end.

(** A patch cut just before its first forbidden entry. *)
Definition cutPatch (conf : Config) : Config :=
  {| ID := ID conf; Image := Image conf; Token := Token conf;
     Envs := cutEnvs (Envs conf);
     Pools := if existsb forbiddenEnv (Envs conf) then []
              else cutPools (Pools conf) |}.

(** The per-entry rule, read off the map: an empty value removes the key,
    any other value is stored under it, other keys are left alone. *)
Definition entryRule (env : Env) (m : EnvMap) (key : string) : option string :=
  if decide (key = Name env)
  then (if decide (Value env = "") then None else Some (Value env))
  else m !! key.

(** A whole list of entries applied to one map, in order. *)
Definition applyEnvs (envs : list Env) (m : EnvMap) : EnvMap :=
  foldl (fun m env => setEnv env m) m envs.

(** One pool of a patch applied to the pool maps: the entries go to the map
    of that pool, which starts empty when the pool had none. *)
Definition applyPool (pm : PoolEnvMap) (p : PoolEnvs) : PoolEnvMap :=
  <[pool_Name p := applyEnvs (pool_Envs p) (default ∅ (pm !! pool_Name p))]> pm.

(** The text of an image reference after its first [n] occurrences of [/];
    after all of them when it has fewer. *)
Fixpoint afterSlashes (n : nat) (image : string) : string :=
  match n with
  | O => image
  | S n' =>
      match Cut image "/" with
      | Some (_, rest) => afterSlashes n' rest
      | None => image
      end
  end.

(** The first part of [CreateContainer], up to the options of the
    container: client, configuration, image pull, host configuration and
    environment. *)
Definition containerSpec (dockerEndpoint poolName : string)
  : M (result (CreateContainerOptions * HostConfig)) :=
  do err <- docker_NewClient dockerEndpoint;
  match err with
  | Some e => ret (Fail e)
  | None =>
      do loaded <- LoadConfig;
      match
        match loaded with
        | Ok c => Ok c
        | Fail e => if decide (e ≠ ErrNotFound) then Fail e else Ok emptyConfig
        end
      with
      | Fail e => ret (Fail e)
      | Ok bsConf =>
          do bsImage <- getImage bsConf;
          do err <- pullBsImage bsImage dockerEndpoint;
          match err with
          | Some e => ret (Fail e)
          | None =>
              do socket <- config_GetString "docker:bs:socket";
              let hostConfig :=
                {| RestartPolicy := "always"; Privileged := true;
                   NetworkMode := "host";
                   Binds := if decide (socket ≠ "")
                            then [socket +:+ ":/var/run/docker.sock:rw"] else [] |} in
              do envs <- EnvListForEndpoint bsConf dockerEndpoint poolName;
              match fst envs with
              | Fail e => ret (Fail e)
              | Ok env =>
                  ret (Ok ({| opts_Name := "big-sibling";
                              opts_HostConfig := hostConfig;
                              opts_Image := bsImage; opts_Env := env |},
                           hostConfig))
              end
          end
      end
  end.

(** The world after the calls [CreateContainer] makes on the client, from
    the world [w] in which the options are built: after the first creation,
    after the forced removal that follows it, after the second creation. *)
Definition afterCreate (endpoint : string) (opts : CreateContainerOptions) (w : World)
  : World := record (EvCreateContainer endpoint opts) w.

Definition afterRemove (endpoint : string) (opts : CreateContainerOptions) (w : World)
  : World :=
  record (EvRemoveContainer endpoint "big-sibling" true) (afterCreate endpoint opts w).

Definition afterRetry (endpoint : string) (opts : CreateContainerOptions) (w : World)
  : World :=
  record (EvCreateContainer endpoint opts) (afterRemove endpoint opts w).

(** A computation only adds calls to the trace and leaves the outside as
    it is. *)
Definition growing {A} (m : M A) : Prop :=
  forall w, outside (m w).2 = outside w /\
            exists calls, trace (m w).2 = trace w ++ calls.


(** The four entries the system computes itself, in the words of the
    design: the runtime endpoint (the node's address, or the local socket
    when one is configured), the platform endpoint (the configured host,
    with [http://] when it names no scheme, and a single trailing slash),
    the token, and the syslog address on the configured port or 1514. *)
Definition seedEnv (o : Outside) (dockerEndpoint token : string) : list string :=
  let host := default "" (o_strings o !! "host") in
  let withScheme :=
    if HasPrefix host "http://" || HasPrefix host "https://"
    then host else "http://" +:+ host in
  let runtime :=
    if decide (default "" (o_strings o !! "docker:bs:socket") = "")
    then dockerEndpoint else "unix:///var/run/docker.sock" in
  let port := default 0%Z (o_ints o !! "docker:bs:syslog-port") in
  [ "DOCKER_ENDPOINT=" +:+ runtime;
    "TSURU_ENDPOINT=" +:+ TrimRight withScheme "/" +:+ "/";
    "TSURU_TOKEN=" +:+ token;
    "SYSLOG_LISTEN_ADDRESS=udp://0.0.0.0:"
      +:+ Itoa (if decide (port = 0%Z) then 1514%Z else port) ].

(** The configuration [EnvListForEndpoint] works with once [getToken] has
    returned: the receiver, or the record loaded into it on the
    duplicate-key path. *)
Definition afterToken (conf : Config) (w : World) : Config :=
  (getToken conf w).1.2.

(** No name of the patch contains [=]. *)
Definition plainNames (conf : Config) : Prop :=
  Forall (fun env => Contains (Name env) "=" = false) (patchEnvs conf).

(** The stored record has no token: there is no record, or its token is
    missing or empty. *)
Definition tokenFree (stored : option Doc) : Prop :=
  stored ≫= doc_token = None \/ stored ≫= doc_token = Some "".

(** ** Sample inputs *)

Module Sample.

Definition env (name value : string) : Env := {| Name := name; Value := value |}.

(** A patch that sets [A], removes [B] and overrides [C] for pool [p1]. *)
Definition patch : Config :=
  {| ID := "bs"; Image := ""; Token := "";
     Envs := [env "A" "1"; env "B" ""];
     Pools := [{| pool_Name := "p1"; pool_Envs := [env "C" "3"] |}] |}.

(** A patch whose second pool entry is forbidden. *)
Definition badPatch : Config :=
  {| ID := "bs"; Image := ""; Token := "";
     Envs := [env "A" "1"];
     Pools := [{| pool_Name := "p1";
                  pool_Envs := [env "C" "3"; env "TSURU_TOKEN" "x"; env "D" "4"] |};
               {| pool_Name := "p2"; pool_Envs := [env "E" "5"] |}] |}.

(** A pull output with two digest lines. *)
Definition twoDigests : string :=
  "Pulling repository tsuru/bs" +:+ newline +:+
  "Digest: sha256:aaa" +:+ newline +:+
  "Digest: sha256:bbb" +:+ newline +:+
  "Status: Downloaded newer image".

(** An outside where nothing fails: the pull prints [twoDigests], the login
    yields [tok1], [range] and the scheduler keep the order they are given. *)
Definition calm : Outside :=
  {| o_strings := {[ "host" := "tsuru.io" ]};
     o_ints := ∅;
     o_InternalAppName := "tsr";
     o_dbConn := fun _ => None;
     o_storeFault := fun _ => None;
     o_appLogin := fun _ => Ok "tok1";
     o_newClient := fun _ => None;
     o_pullImage := fun _ => Ok twoDigests;
     o_createContainer := fun _ => Ok "c1";
     o_removeContainer := fun _ => None;
     o_startContainer := fun _ => None;
     o_unfilteredNodes := fun _ =>
       Ok [{| Address := "http://n1:4243"; Metadata := {[ "pool" := "p1" ]} |};
           {| Address := "http://n2:4243"; Metadata := ∅ |}];
     o_range := fun _ l => l;
     o_schedule := fun l => l |}.

(** Nothing stored yet, nothing called yet. *)
Definition fresh : World := {| outside := calm; store := None; trace := [] |}.

(** Another caller has already stored its token [old]. *)
Definition taken : World :=
  {| outside := calm;
     store := Some {| doc_image := None; doc_token := Some "old";
                      doc_envs := None; doc_pools := None |};
     trace := [] |}.

(** A configuration loaded before any token was stored. *)
Definition tokenless : Config :=
  {| ID := "bs"; Image := ""; Token := ""; Envs := []; Pools := [] |}.

(** The storage layer fails, with other than a duplicate key, on the third
    call of a run (the upsert of [getToken] from an empty trace). *)
Definition failingStore : World :=
  {| outside :=
       {| o_strings := o_strings calm; o_ints := o_ints calm;
          o_InternalAppName := o_InternalAppName calm;
          o_dbConn := o_dbConn calm;
          o_storeFault := fun t => if decide (List.length t = 2)
                                   then Some (ErrText "no reachable servers")
                                   else None;
          o_appLogin := o_appLogin calm; o_newClient := o_newClient calm;
          o_pullImage := o_pullImage calm;
          o_createContainer := o_createContainer calm;
          o_removeContainer := o_removeContainer calm;
          o_startContainer := o_startContainer calm;
          o_unfilteredNodes := o_unfilteredNodes calm;
          o_range := o_range calm; o_schedule := o_schedule calm |};
     store := None; trace := [] |}.

Definition isCreate (e : event) : bool :=
  match e with EvCreateContainer _ _ => true | _ => false end.

(** The node already runs a container named [big-sibling]: the first
    creation is refused, the one after a removal goes through. *)
Definition occupied : World :=
  {| outside :=
       {| o_strings := o_strings calm; o_ints := o_ints calm;
          o_InternalAppName := o_InternalAppName calm;
          o_dbConn := o_dbConn calm; o_storeFault := o_storeFault calm;
          o_appLogin := o_appLogin calm; o_newClient := o_newClient calm;
          o_pullImage := o_pullImage calm;
          o_createContainer := fun t => if existsb isCreate t then Ok "c2"
                                        else Fail ErrContainerAlreadyExists;
          o_removeContainer := o_removeContainer calm;
          o_startContainer := o_startContainer calm;
          o_unfilteredNodes := o_unfilteredNodes calm;
          o_range := o_range calm; o_schedule := o_schedule calm |};
     store := None; trace := [] |}.


(** A configuration with a cached token and one override whose name is not
    forbidden but starts with a reserved name and [=]. *)
Definition shadowing : Config :=
  {| ID := "bs"; Image := ""; Token := "tok0";
     Envs := [env "TSURU_TOKEN=x" "y"]; Pools := [] |}.

(** A configuration with a cached token, a global and a pool override. *)
Definition plain : Config :=
  {| ID := "bs"; Image := ""; Token := "tok0";
     Envs := [env "A" "1"];
     Pools := [{| pool_Name := "p1"; pool_Envs := [env "C" "3"] |}] |}.

(** A receiver without token that holds a forbidden name, while the stored
    record, which has a token, holds none. *)
Definition staleForbidden : Config :=
  {| ID := "bs"; Image := ""; Token := "";
     Envs := [env "TSURU_TOKEN" "x"]; Pools := [] |}.

End Sample.

(** ** Vocabulary of the further properties *)

(** The last entry of a list that names [key]. *)
Definition lastFor (key : string) (envs : list Env) : option Env :=
  last (filter (fun env => Name env = key) envs).

(** What an entry leaves under its key: nothing for an empty value. *)
Definition written (env : Env) : option string :=
  if decide (Value env = "") then None else Some (Value env).

(** The entries a patch holds for one pool, over all its [PoolEnvs] of that
    name, in order. *)
Definition poolEntries (pool : string) (pools : list PoolEnvs) : list Env :=
  List.concat (map pool_Envs (filter (fun p => pool_Name p = pool) pools)).

(** A map that holds no empty value and no forbidden key. *)
Definition tidy (m : EnvMap) : Prop :=
  forall key value, m !! key = Some value -> value <> "" /\ forbidden key = false.

Definition tidyPools (pm : PoolEnvMap) : Prop :=
  forall pool m, pm !! pool = Some m -> tidy m.

(** The [PoolEnvs] that [bsConfigFromEnvMaps] makes of one pool and the
    entries of its map, in the order [range] gave them. *)
Definition toPoolEnvs (o : Outside) (p : string * EnvMap) : PoolEnvs :=
  {| pool_Name := p.1; pool_Envs := map toEnv (o_range o _ (map_to_list p.2)) |}.

(** The storage never fails: every connection is made and no operation is
    hit by a fault. *)
Definition soundStorage (o : Outside) : Prop :=
  (forall t, o_dbConn o t = None) /\ (forall t, o_storeFault o t = None).

Module Sample2.

Definition envMap : EnvMap := {[ "A" := "1" ]}.

Definition poolEnvMap : PoolEnvMap := {[ "p1" := {[ "C" := "3" ]} ]}.

(** The registry refuses the pull. *)
Definition pullRefused : World :=
  {| outside :=
       {| o_strings := o_strings Sample.calm; o_ints := o_ints Sample.calm;
          o_InternalAppName := o_InternalAppName Sample.calm;
          o_dbConn := o_dbConn Sample.calm;
          o_storeFault := o_storeFault Sample.calm;
          o_appLogin := o_appLogin Sample.calm;
          o_newClient := o_newClient Sample.calm;
          o_pullImage := fun _ => Fail (ErrText "pull access denied");
          o_createContainer := o_createContainer Sample.calm;
          o_removeContainer := o_removeContainer Sample.calm;
          o_startContainer := o_startContainer Sample.calm;
          o_unfilteredNodes := o_unfilteredNodes Sample.calm;
          o_range := o_range Sample.calm; o_schedule := o_schedule Sample.calm |};
     store := None; trace := [] |}.

(** Each login is issued a token of its own: [tok1] to the first caller,
    [tok2] to any later one. *)
Definition isLogin (e : event) : bool :=
  match e with EvAppLogin _ => true | _ => false end.

Definition twoCallers : World :=
  {| outside :=
       {| o_strings := o_strings Sample.calm; o_ints := o_ints Sample.calm;
          o_InternalAppName := o_InternalAppName Sample.calm;
          o_dbConn := o_dbConn Sample.calm;
          o_storeFault := o_storeFault Sample.calm;
          o_appLogin := fun t => if existsb isLogin t then Ok "tok2" else Ok "tok1";
          o_newClient := o_newClient Sample.calm;
          o_pullImage := o_pullImage Sample.calm;
          o_createContainer := o_createContainer Sample.calm;
          o_removeContainer := o_removeContainer Sample.calm;
          o_startContainer := o_startContainer Sample.calm;
          o_unfilteredNodes := o_unfilteredNodes Sample.calm;
          o_range := o_range Sample.calm; o_schedule := o_schedule Sample.calm |};
     store := None; trace := [] |}.

End Sample2.

(** Every call a computation adds to the trace satisfies [P]. *)
Definition emits {A} (P : event -> Prop) (m : M A) : Prop :=
  forall w, exists calls, trace (m w).2 = trace w ++ calls /\ Forall P calls.

(** Calls that act on a container of the node. *)
Definition isContainerCall (e : event) : bool :=
  match e with
  | EvCreateContainer _ _ | EvRemoveContainer _ _ _ | EvStartContainer _ _ _ => true
  | _ => false
  end.

Definition isRemove (e : event) : bool :=
  match e with EvRemoveContainer _ _ _ => true | _ => false end.

(** Calls that open or close a storage connection. *)
Definition isConnCall (e : event) : bool :=
  match e with EvDbConn | EvDbClose => true | _ => false end.

(** The calls of one storage session: the connection, calls that are not
    connections, the close. *)
Definition oneSession (calls : list event) : Prop :=
  exists inside, calls = EvDbConn :: inside ++ [EvDbClose] /\
                 Forall (fun e => isConnCall e = false) inside.

(** A run of [n] bytes [c]. *)
Fixpoint replicateByte (n : nat) (c : ascii) : string :=
  match n with
  | O => EmptyString
  | S n' => String c (replicateByte n' c)
  end.

(** The host of the configuration file with [http://] in front when it
    names no scheme. *)
Definition hostWithScheme (o : Outside) : string :=
  let host := default "" (o_strings o !! "host") in
  if HasPrefix host "http://" || HasPrefix host "https://"
  then host else "http://" +:+ host.

(** * Properties *)

(** ** Strings *)

Section CutByte.

Variable sep : ascii.

Lemma Cut_nil : Cut "" (String sep "") = None.
Proof. reflexivity. Qed.

Lemma Cut_cons c s :
  Cut (String c s) (String sep "") =
  if decide (c = sep) then Some ("", s)
  else match Cut s (String sep "") with
       | Some (a, b) => Some (String c a, b)
       | None => None
       end.
Proof.
  cbn [Cut String.prefix String.length dropBytes].
  destruct (ascii_dec sep c) as [->|Hne].
  - rewrite decide_True by done. by destruct s.
  - rewrite decide_False by congruence. done.
Qed.

Lemma Cut_Count_Some s a b :
  Cut s (String sep "") = Some (a, b) ->
  Count s sep = S (Count b sep) /\ Count a sep = 0 /\ s = a +:+ String sep b.
Proof.
  revert a b. induction s as [|c s IH]; intros a b.
  - by rewrite Cut_nil.
  - rewrite Cut_cons. cbn [Count]. case_decide as Hc.
    + intros [= <- <-]. subst c. done.
    + destruct (Cut s (String sep "")) as [[a' b']|] eqn:E; [|done].
      intros [= <- <-]. destruct (IH _ _ eq_refl) as (H1 & H2 & H3).
      cbn [Count]. rewrite decide_False by done.
      repeat split; [lia | done | by rewrite H3 at 1].
Qed.

Lemma Cut_Count_None s :
  Cut s (String sep "") = None -> Count s sep = 0.
Proof.
  induction s as [|c s IH]; [done|].
  rewrite Cut_cons. cbn [Count]. case_decide; [done|].
  destruct (Cut s (String sep "")) as [[a' b']|]; [done|].
  intros _. by rewrite IH.
Qed.

Lemma Count_Contains s :
  Contains s (String sep "") = false <-> Count s sep = 0.
Proof.
  unfold Contains. destruct (Cut s (String sep "")) as [[a b]|] eqn:E.
  - apply Cut_Count_Some in E as (H & _). split; [done | lia].
  - apply Cut_Count_None in E. done.
Qed.

Lemma SplitN_enough n m s :
  Count s sep < n -> Count s sep < m ->
  SplitN s (String sep "") n = SplitN s (String sep "") m.
Proof.
  revert m s. induction n as [|n IH]; intros m s Hn Hm; [lia|].
  destruct m as [|m]; [lia|].
  cbn [SplitN].
  destruct (Cut s (String sep "")) as [[a b]|] eqn:E.
  - apply Cut_Count_Some in E as (Hc & _).
    destruct n as [|n]; [lia|]. destruct m as [|m]; [lia|].
    f_equal. apply IH; lia.
  - by destruct n, m.
Qed.

Lemma Count_le_length s : Count s sep <= String.length s.
Proof.
  induction s as [|c s IH]; cbn [Count String.length]; [lia|].
  case_decide; lia.
Qed.

End CutByte.

(** ** Image pinning (C5) *)

Lemma SplitN_S_cons s sep n : exists x l, SplitN s sep (S n) = x :: l.
Proof.
  destruct n; cbn [SplitN]; [by eauto|].
  destruct (Cut s sep) as [[a b]|]; eauto.
Qed.

Lemma last_SplitN_afterSlashes n image :
  List.last (SplitN image "/" (S n)) "" = afterSlashes n image.
Proof.
  revert image. induction n as [|n IH]; intros image; [done|].
  cbn [afterSlashes]. change (SplitN image "/" (S (S n))) with
    (match Cut image "/" with
     | Some (a, b) => a :: SplitN b "/" (S n)
     | None => [image]
     end).
  destruct (Cut image "/") as [[a b]|]; [|done].
  rewrite <- IH. by destruct (SplitN_S_cons b "/" n) as (x & l & ->).
Qed.

Lemma shouldPinBsImage_afterSlashes image :
  shouldPinBsImage image = negb (Contains (afterSlashes 2 image) ":").
Proof.
  unfold shouldPinBsImage. rewrite (last_SplitN_afterSlashes 2).
  unfold Contains. cbn [SplitN].
  by destruct (Cut (afterSlashes 2 image) ":") as [[a b]|].
Qed.

Lemma afterSlashes_trailingSegment image :
  Count image "/" <= 2 -> afterSlashes 2 image = trailingSegment image.
Proof.
  intros Hc. unfold trailingSegment, Split.
  rewrite <- (last_SplitN_afterSlashes 2). f_equal.
  apply SplitN_enough; [lia|].
  pose proof (Count_le_length "/" image). lia.
Qed.

Lemma Split_Cut s :
  Split s "/" = match Cut s "/" with
                | Some (a, b) => a :: Split b "/"
                | None => [s]
                end.
Proof.
  unfold Split. destruct s as [|c s]; [done|].
  cbn [String.length].
  change (SplitN (String c s) "/" (S (S (String.length s)))) with
    (match Cut (String c s) "/" with
     | Some (a, b) => a :: SplitN b "/" (S (String.length s))
     | None => [String c s]
     end).
  destruct (Cut (String c s) "/") as [[a b]|] eqn:E; [|done].
  f_equal. apply Cut_Count_Some in E as (Hc & _ & _).
  pose proof (Count_le_length "/" (String c s)) as Hs. cbn [String.length] in Hs.
  pose proof (Count_le_length "/" b).
  apply SplitN_enough; lia.
Qed.

Lemma Split_not_nil s : Split s "/" <> [].
Proof. rewrite Split_Cut. by destruct (Cut s "/") as [[a b]|]. Qed.

Lemma Count_colon_Cut s a b :
  Cut s "/" = Some (a, b) -> Count s ":" = Count a ":" + Count b ":".
Proof.
  revert a b. induction s as [|c s IH]; intros a b; [by rewrite Cut_nil|].
  rewrite Cut_cons. cbn [Count]. case_decide as Hc.
  - intros [= <- <-]. subst c. by rewrite decide_False.
  - destruct (Cut s "/") as [[a' b']|]; [|done].
    intros [= <- <-]. cbn [Count]. rewrite (IH a' b' eq_refl). lia.
Qed.

Lemma Contains_colon_Cut s a b :
  Cut s "/" = Some (a, b) -> Contains a ":" = false ->
  Contains s ":" = Contains b ":".
Proof.
  intros Hcut Ha%Count_Contains. apply Count_colon_Cut in Hcut.
  destruct (Contains s ":") eqn:Hs, (Contains b ":") eqn:Hb; try done.
  - apply Count_Contains in Hb. apply not_false_iff_true in Hs.
    exfalso. apply Hs. apply Count_Contains. lia.
  - apply Count_Contains in Hs. apply not_false_iff_true in Hb.
    exfalso. apply Hb. apply Count_Contains. lia.
Qed.

(** When every component but the last holds no [:], a [:] of the text is a
    [:] of its trailing segment. *)
Lemma Contains_colon_trailingSegment s :
  forallb (fun component => negb (Contains component ":"))
          (removelast (Split s "/")) = true ->
  Contains s ":" = Contains (trailingSegment s) ":".
Proof.
  unfold trailingSegment.
  remember (String.length s) as n eqn:Hn.
  assert (String.length s <= n) as Hlen by lia. clear Hn.
  revert s Hlen. induction n as [|n IH]; intros s Hlen.
  - destruct s; [done|]. cbn [String.length] in Hlen. lia.
  - rewrite Split_Cut. destruct (Cut s "/") as [[a b]|] eqn:E; [|done].
    pose proof (Split_not_nil b) as Hb.
    destruct (Split b "/") as [|x l] eqn:Es; [done|].
    change (removelast (a :: x :: l)) with (a :: removelast (x :: l)).
    change (List.last (a :: x :: l) "") with (List.last (x :: l) "").
    cbn [forallb]. intros [Ha Hrest]%andb_true_iff.
    apply negb_true_iff in Ha.
    rewrite (Contains_colon_Cut s a b E Ha). rewrite <- Es in *.
    apply IH; [|done].
    apply Cut_Count_Some in E as (_ & _ & ->).
    clear -Hlen. induction a as [|c a IHa].
    + change ("" +:+ String "/" b) with (String "/"%char b) in Hlen.
      cbn [String.length] in Hlen. lia.
    + change (String c a +:+ String "/" b)
        with (String c (a +:+ String "/" b)) in Hlen.
      cbn [String.length] in Hlen. apply IHa. lia.
Qed.

Lemma shouldPinBsImage_trailingSegment image :
  referenceShaped image = true ->
  shouldPinBsImage image = negb (Contains (trailingSegment image) ":").
Proof.
  unfold referenceShaped, middleComponents. intros Hshape.
  rewrite shouldPinBsImage_afterSlashes. f_equal.
  unfold trailingSegment in *. cbn [afterSlashes].
  rewrite Split_Cut in Hshape |- *.
  destruct (Cut image "/") as [[a b]|] eqn:Ea; [|done].
  cbn [tail] in Hshape.
  pose proof (Split_not_nil b) as Hb.
  destruct (Split b "/") as [|x l] eqn:Es; [done|].
  change (List.last (a :: x :: l) "") with (List.last (x :: l) "").
  rewrite <- Es in *. clear x l Es Hb. fold (trailingSegment b).
  rewrite Split_Cut in Hshape. unfold trailingSegment. rewrite Split_Cut.
  destruct (Cut b "/") as [[b1 c]|] eqn:Eb; [|done].
  pose proof (Split_not_nil c) as Hc.
  destruct (Split c "/") as [|y k] eqn:Ec; [done|].
  change (removelast (b1 :: y :: k)) with (b1 :: removelast (y :: k)) in Hshape.
  change (List.last (b1 :: y :: k) "") with (List.last (y :: k) "").
  cbn [forallb] in Hshape. apply andb_true_iff in Hshape as [_ Hrest].
  rewrite <- Ec in *. by apply Contains_colon_trailingSegment.
Qed.

(** The shape is needed: [a/b/c:1/d], which is no image reference, has a
    trailing segment [d] without [:] and is not pinned, because [SplitN]
    with limit 3 leaves [c:1/d] as the last part. *)
Lemma shouldPinBsImage_outside_references :
  referenceShaped "a/b/c:1/d" = false /\
  (shouldPinBsImage "a/b/c:1/d"
   <> negb (Contains (trailingSegment "a/b/c:1/d") ":")).
Proof. split; [by vm_compute | vm_compute; discriminate]. Qed.

(** C5: for every image reference, [shouldPinBsImage] pins exactly when the
    trailing path segment of the reference (what follows its last [/])
    contains no [:].  [repo/image] is pinned, [repo/image:1.0] is not, and
    [registry:5000/repo/image] is, its [:] being in the registry host; all
    three are references, and so are references with a longer path. *)
Theorem shouldPinBsImage_decides image :
  (referenceShaped image = true ->
   shouldPinBsImage image = negb (Contains (trailingSegment image) ":")) /\
  (referenceShaped "repo/image" = true /\
   shouldPinBsImage "repo/image" = true) /\
  (referenceShaped "repo/image:1.0" = true /\
   shouldPinBsImage "repo/image:1.0" = false) /\
  (referenceShaped "registry:5000/repo/image" = true /\
   shouldPinBsImage "registry:5000/repo/image" = true) /\
  (referenceShaped "registry:5000/team/repo/image:1.0" = true /\
   shouldPinBsImage "registry:5000/team/repo/image:1.0" = false).
Proof.
  split; [apply shouldPinBsImage_trailingSegment|].
  by vm_compute.
Qed.

Lemma shouldPinBsImage_decides_witness :
  referenceShaped "registry:5000/team/repo/image" = true /\
  trailingSegment "registry:5000/team/repo/image" = "image" /\
  shouldPinBsImage "registry:5000/team/repo/image"
  = negb (Contains (trailingSegment "registry:5000/team/repo/image") ":").
Proof.
  split; [by vm_compute|]. split; [by vm_compute|].
  destruct (shouldPinBsImage_decides "registry:5000/team/repo/image") as (H & _).
  apply H. by vm_compute.
Defined.

(** ** [UpdateEnvMaps] (C3, C4) *)

Lemma forbidden_reserved name :
  forbidden name = true <-> name ∈ reservedKeys.
Proof.
  unfold forbidden, forbiddenList, reservedKeys.
  rewrite !elem_of_cons, elem_of_nil.
  repeat (rewrite lookup_insert; destruct (decide _) as [<-|?];
          [cbn; intuition congruence|]).
  rewrite lookup_singleton.
  destruct (decide _) as [<-|?]; cbn; intuition congruence.
Qed.

Lemma setEnv_lookup env m key :
  setEnv env m !! key = entryRule env m key.
Proof.
  unfold setEnv, entryRule. destruct (decide (key = Name env)) as [->|Hne].
  - case_decide; [apply lookup_delete_eq | apply lookup_insert_eq].
  - case_decide; [by apply lookup_delete_ne | by apply lookup_insert_ne].
Qed.

Lemma find_app_first {A} (f : A -> bool) l1 l2 :
  find f (l1 ++ l2) = match find f l1 with Some x => Some x | None => find f l2 end.
Proof. induction l1 as [|a l1 IH]; [done|]. cbn. by destruct (f a). Qed.

Lemma find_existsb {A} (f : A -> bool) l :
  existsb f l = bool_decide (is_Some (find f l)).
Proof.
  induction l as [|a l IH]; [done|]. cbn. by destruct (f a).
Qed.

Lemma find_cut envs :
  match find forbiddenEnv envs with
  | Some bad => exists post, envs = cutEnvs envs ++ bad :: post
  | None => cutEnvs envs = envs
  end.
Proof.
  induction envs as [|e envs IH]; [done|]. cbn.
  destruct (forbiddenEnv e) eqn:E; [by exists envs|].
  destruct (find forbiddenEnv envs) as [bad|].
  - destruct IH as [post IH]. exists post. cbn. by rewrite <- IH.
  - by rewrite IH.
Qed.

Lemma cutEnvs_clean envs : existsb forbiddenEnv (cutEnvs envs) = false.
Proof.
  induction envs as [|e envs IH]; [done|]. cbn.
  destruct (forbiddenEnv e) eqn:E; [done|]. cbn. by rewrite E.
Qed.

Lemma updateGlobal_run envs m :
  updateGlobal envs m =
  (cannotSet ∘ Name <$> find forbiddenEnv envs, applyEnvs (cutEnvs envs) m).
Proof.
  revert m. induction envs as [|e envs IH]; intros m; [done|].
  cbn [updateGlobal find cutEnvs].
  change (forbidden (Name e)) with (forbiddenEnv e).
  destruct (forbiddenEnv e); [reflexivity|]. by rewrite IH.
Qed.

Lemma updatePool_run pname envs pm :
  updatePool pname envs pm =
  (cannotSet ∘ Name <$> find forbiddenEnv envs,
   alter (applyEnvs (cutEnvs envs)) pname pm).
Proof.
  revert pm. induction envs as [|e envs IH]; intros pm.
  - cbn. f_equal. apply map_eq; intros k. rewrite lookup_alter.
    case_decide; [subst; by destruct (pm !! k) | done].
  - cbn [updatePool find cutEnvs].
    change (forbidden (Name e)) with (forbiddenEnv e).
    destruct (forbiddenEnv e).
    + cbn. f_equal. apply map_eq; intros k. rewrite lookup_alter.
      case_decide; [subst; by destruct (pm !! k) | done].
    + rewrite IH. f_equal. apply map_eq; intros k. rewrite !lookup_alter.
      case_decide; [|done]. subst. rewrite decide_True by done.
      by destruct (pm !! k).
Qed.

Lemma alter_ensurePool f pname (pm : PoolEnvMap) :
  alter f pname (ensurePool pname pm) = <[pname := f (default ∅ (pm !! pname))]> pm.
Proof.
  apply map_eq; intros k. unfold ensurePool. rewrite lookup_alter, lookup_insert.
  destruct (pm !! pname) eqn:E; case_decide; subst; rewrite ?lookup_insert_eq, ?E; try done.
  by rewrite lookup_insert_ne.
Qed.

Lemma updatePools_run pools pm :
  updatePools pools pm =
  (cannotSet ∘ Name <$> find forbiddenEnv (List.concat (map pool_Envs pools)),
   foldl applyPool pm (cutPools pools)).
Proof.
  revert pm. induction pools as [|p pools IH]; intros pm; [done|].
  cbn [updatePools map List.concat cutPools]. rewrite updatePool_run, find_app_first.
  rewrite alter_ensurePool, find_existsb.
  pose proof (find_cut (pool_Envs p)) as Hcut.
  destruct (find forbiddenEnv (pool_Envs p)) as [bad|] eqn:E.
  - rewrite bool_decide_eq_true_2 by eauto. done.
  - rewrite bool_decide_eq_false_2 by (by intros [??]).
    cbn [fmap option_fmap option_map]. rewrite IH. cbn [foldl].
    unfold applyPool at 2. by rewrite Hcut.
Qed.

Lemma UpdateEnvMaps_run conf envMap poolEnvMap :
  UpdateEnvMaps conf envMap poolEnvMap =
  (cannotSet ∘ Name <$> firstForbidden conf,
   applyEnvs (Envs (cutPatch conf)) envMap,
   foldl applyPool poolEnvMap (Pools (cutPatch conf))).
Proof.
  unfold UpdateEnvMaps, firstForbidden, patchEnvs.
  rewrite updateGlobal_run, find_app_first, updatePools_run. cbn [cutPatch Envs Pools].
  rewrite find_existsb. fold forbiddenEnv.
  destruct (find forbiddenEnv (Envs conf)) as [bad|] eqn:E.
  - by rewrite bool_decide_eq_true_2 by eauto.
  - by rewrite bool_decide_eq_false_2 by (by intros [??]).
Qed.

Lemma cutEnvs_id envs : existsb forbiddenEnv envs = false -> cutEnvs envs = envs.
Proof.
  induction envs as [|e envs IH]; [done|]. cbn.
  destruct (forbiddenEnv e); [done|]. cbn. intros H. by rewrite IH.
Qed.

Lemma existsb_concat {A} (f : A -> bool) (ls : list (list A)) :
  existsb f (List.concat ls) = existsb (existsb f) ls.
Proof.
  induction ls as [|l ls IH]; [done|]. cbn. by rewrite existsb_app, IH.
Qed.

Lemma cutPools_id pools :
  existsb forbiddenEnv (List.concat (map pool_Envs pools)) = false ->
  cutPools pools = pools.
Proof.
  induction pools as [|p pools IH]; [done|]. cbn. rewrite existsb_app.
  destruct (existsb forbiddenEnv (pool_Envs p)); [done|]. cbn.
  intros H. by rewrite IH.
Qed.

Lemma cutPools_clean pools :
  existsb forbiddenEnv (List.concat (map pool_Envs (cutPools pools))) = false.
Proof.
  induction pools as [|p pools IH]; [done|]. cbn.
  destruct (existsb forbiddenEnv (pool_Envs p)) eqn:E; cbn.
  - by rewrite app_nil_r, cutEnvs_clean.
  - by rewrite existsb_app, E, IH.
Qed.


Lemma cutPatch_clean conf : hasForbidden (cutPatch conf) = false.
Proof.
  unfold hasForbidden, patchEnvs. cbn [cutPatch Envs Pools].
  fold forbiddenEnv. rewrite existsb_app, cutEnvs_clean.
  destruct (existsb forbiddenEnv (Envs conf)); [done|]. apply cutPools_clean.
Qed.

Lemma cutPatch_id conf : hasForbidden conf = false -> cutPatch conf = conf.
Proof.
  unfold hasForbidden, patchEnvs. fold forbiddenEnv. rewrite existsb_app.
  intros [H1 H2]%orb_false_iff. destruct conf as [i im t es ps]. cbn in *.
  unfold cutPatch; cbn. by rewrite H1, cutEnvs_id, cutPools_id.
Qed.


Lemma firstForbidden_None conf :
  hasForbidden conf = false -> firstForbidden conf = None.
Proof.
  unfold hasForbidden, firstForbidden. rewrite find_existsb.
  intros H%bool_decide_eq_false. destruct (find _ _); [|done].
  destruct H. eauto.
Qed.




(** A pool named by the patch has a map afterwards, any other pool is as it
    was. *)
Lemma applyPools_created pools (pm : PoolEnvMap) name :
  name ∈ map pool_Name pools -> is_Some (foldl applyPool pm pools !! name).
Proof.
  revert pm. induction pools as [|p pools IH] using rev_ind; intros pm.
  - by intros ?%elem_of_nil.
  - rewrite map_app, foldl_app, elem_of_app. cbn. unfold applyPool at 1.
    rewrite lookup_insert. case_decide; [by eauto|].
    intros [H1|H1]; [by apply IH|].
    apply elem_of_cons in H1 as [H1|H1%elem_of_nil]; done.
Qed.

Lemma applyPools_others pools (pm : PoolEnvMap) name :
  name ∉ map pool_Name pools -> foldl applyPool pm pools !! name = pm !! name.
Proof.
  revert pm. induction pools as [|p pools IH]; intros pm; [done|]. cbn.
  rewrite not_elem_of_cons. intros [H1 H2]. rewrite IH by done.
  unfold applyPool. by rewrite lookup_insert_ne.
Qed.

(** C4: every entry [UpdateEnvMaps] applies (those of the patch before its
    first forbidden entry, all of them when it has none) follows the
    per-entry rule on its target map: the global entries on the global map,
    a pool's entries on that pool's map.  An empty value deletes the key, a
    non-empty value is stored under it.  A pool named by the patch gets its
    map if it had none, starting empty; pools the patch does not name are
    left as they were. *)
Theorem UpdateEnvMaps_entry_rule conf envMap poolEnvMap :
  let applied := cutPatch conf in
  let m' := applyEnvs (Envs applied) envMap in
  let pm' := foldl applyPool poolEnvMap (Pools applied) in
  (UpdateEnvMaps conf envMap poolEnvMap).1 = (cannotSet ∘ Name <$> firstForbidden conf, m') /\
  (UpdateEnvMaps conf envMap poolEnvMap).2 = pm' /\
  (hasForbidden conf = false ->
   applied = conf /\ UpdateEnvMaps conf envMap poolEnvMap = (None, m', pm')) /\
  (forall envs env m key,
     applyEnvs (envs ++ [env]) m !! key = entryRule env (applyEnvs envs m) key) /\
  (forall pools p pm name,
     foldl applyPool pm (pools ++ [p]) !! name =
     let before := foldl applyPool pm pools in
     if decide (name = pool_Name p)
     then Some (applyEnvs (pool_Envs p) (default ∅ (before !! name)))
     else before !! name) /\
  (forall name, name ∈ map pool_Name (Pools applied) -> is_Some (pm' !! name)) /\
  (forall name, name ∉ map pool_Name (Pools applied) -> pm' !! name = poolEnvMap !! name).
Proof.
  cbn zeta. rewrite UpdateEnvMaps_run. cbn [fst snd].
  split; [done|]. split; [done|]. split.
  - intros H. by rewrite (cutPatch_id _ H), (firstForbidden_None _ H).
  - split.
    + intros envs env m key. unfold applyEnvs. rewrite foldl_app. cbn.
      apply setEnv_lookup.
    + split; [|split; [apply applyPools_created | apply applyPools_others]].
      intros pools p pm name. rewrite foldl_app. cbn. unfold applyPool at 1.
      rewrite lookup_insert. by repeat case_decide; subst.
Qed.

Lemma UpdateEnvMaps_entry_rule_witness :
  hasForbidden Sample.patch = false /\
  UpdateEnvMaps Sample.patch {[ "B" := "2" ]} ∅
  = (None, {[ "A" := "1" ]}, {[ "p1" := {[ "C" := "3" ]} ]}).
Proof.
  split; [by vm_compute|].
  destruct (UpdateEnvMaps_entry_rule Sample.patch {[ "B" := "2" ]} ∅)
    as (_ & _ & H & _).
  destruct H as [_ ->]; [by vm_compute|].
  by vm_compute.
Defined.



(** ** Running the world *)

Ltac unfold_world :=
  unfold bind, ret, collection, coll_Close, coll_UpsertId, coll_Upsert,
    coll_FindId_One, AppLogin, Logout, app_InternalAppName, docker_NewClient,
    client_PullImage, client_CreateContainer, client_RemoveContainer,
    client_StartContainer, cluster_UnfilteredNodes, config_GetString,
    config_GetInt, log_Debugf, log_Error, rangeMap, schedule in *;
  cbn [outside store trace record setStore fst snd] in *.

Lemma SaveImage_run digest w :
  SaveImage digest w =
  let w1 := record EvDbConn w in
  match o_dbConn (outside w) (trace w) with
  | Some e => (Some e, w1)
  | None =>
      let w2 := record (EvUpsertId [SetImage digest]) w1 in
      match o_storeFault (outside w) (trace w1) with
      | Some e => (Some e, record EvDbClose w2)
      | None =>
          (None, record EvDbClose
                   (setStore (applyUpdate (default emptyDoc (store w))
                                          (SetImage digest)) w2))
      end
  end.
Proof.
  unfold SaveImage. unfold_world.
  destruct (o_dbConn _ _); [done|]. by destruct (o_storeFault _ _).
Qed.

(** ** Image pinning (C6) *)

Lemma FindAllStringSubmatch_first output :
  match digestRegexp_FindAllStringSubmatch output 1 with
  | m :: _ => Some (nth 1 m "")
  | [] => None
  end = firstDigest output.
Proof.
  unfold digestRegexp_FindAllStringSubmatch, firstDigest.
  induction (Split output newline) as [|line lines IH]; [done|].
  cbn. unfold digestLine. destruct (HasPrefix line "Digest: "); [done|].
  exact IH.
Qed.

Lemma pinImage_first image output :
  shouldPinBsImage image = true ->
  pinImage image output =
  match firstDigest output with
  | Some value => image +:+ "@" +:+ value
  | None => image
  end.
Proof.
  intros Hpin. unfold pinImage. rewrite Hpin, <- FindAllStringSubmatch_first.
  by destruct (digestRegexp_FindAllStringSubmatch output 1).
Qed.

(** C6, as stated, fails: with two digest lines in the pull output the
    reference saved carries the value of the first one, not of the last. *)
Lemma pullBsImage_not_last_digest :
  shouldPinBsImage "tsuru/bs" = true /\
  o_pullImage (outside Sample.fresh) (trace Sample.fresh) = Ok Sample.twoDigests /\
  lastDigest Sample.twoDigests = Some "sha256:bbb" /\
  (pullBsImage "tsuru/bs" "http://n1:4243" Sample.fresh).1 = None /\
  store (pullBsImage "tsuru/bs" "http://n1:4243" Sample.fresh).2 ≫= doc_image
  = Some "tsuru/bs@sha256:aaa" /\
  store (pullBsImage "tsuru/bs" "http://n1:4243" Sample.fresh).2 ≫= doc_image
  <> Some "tsuru/bs@sha256:bbb".
Proof. by vm_compute. Qed.

(** C6, amended: when the pull succeeds on a reference for which pinning
    applies, [pullBsImage] appends [@value] for the first line of the output
    that reads [Digest: value]; when no line does, the reference is left as
    it is.  In both cases that reference is handed to [SaveImage], whose
    result is the result: no digest is no error, and when the store takes
    the write the record's image is that reference. *)
Theorem pullBsImage_pins_first_digest image endpoint output w :
  o_newClient (outside w) endpoint = None ->
  o_pullImage (outside w) (trace w) = Ok output ->
  shouldPinBsImage image = true ->
  let saved := match firstDigest output with
               | Some value => image +:+ "@" +:+ value
               | None => image
               end in
  let pulled := record (EvPullImage endpoint image) w in
  pullBsImage image endpoint w = SaveImage saved pulled /\
  (o_dbConn (outside w) (trace pulled) = None ->
   o_storeFault (outside w) (trace pulled ++ [EvDbConn]) = None ->
   (pullBsImage image endpoint w).1 = None /\
   store (pullBsImage image endpoint w).2 ≫= doc_image = Some saved).
Proof.
  intros Hclient Hpull Hpin saved pulled.
  assert (pullBsImage image endpoint w = SaveImage saved pulled) as ->.
  { unfold pullBsImage. unfold_world. rewrite Hclient, Hpull.
    by rewrite pinImage_first. }
  split; [done|]. subst pulled. cbn [outside record trace]. intros Hconn Hstore.
  rewrite SaveImage_run. cbn zeta. cbn [outside record trace].
  by rewrite Hconn, Hstore.
Qed.

Lemma pullBsImage_pins_first_digest_witness :
  (pullBsImage "tsuru/bs" "http://n1:4243" Sample.fresh).1 = None /\
  store (pullBsImage "tsuru/bs" "http://n1:4243" Sample.fresh).2 ≫= doc_image
  = Some "tsuru/bs@sha256:aaa".
Proof.
  destruct (pullBsImage_pins_first_digest "tsuru/bs" "http://n1:4243"
              Sample.twoDigests Sample.fresh) as [_ H]; try reflexivity.
  destruct H as [H1 H2]; try reflexivity.
  split; [exact H1|]. rewrite H2. reflexivity.
Defined.

(** ** The token provider (C2, C10) *)

Lemma getToken_cached conf w :
  Token conf ≠ "" -> getToken conf w = (Ok (Token conf), conf, w).
Proof. intros H. unfold getToken. by rewrite decide_True. Qed.

(** The steps of [getToken] once the login has produced a token. *)
Lemma getToken_fresh conf w token :
  Token conf = "" ->
  o_dbConn (outside w) (trace w) = None ->
  o_appLogin (outside w) (trace w ++ [EvDbConn]) = Ok token ->
  getToken conf w =
  let w2 := record (EvAppLogin (o_InternalAppName (outside w))) (record EvDbConn w) in
  let '(err, w3) := coll_Upsert tokenUnset [SetToken token] w2 in
  match err with
  | None => (Ok token, withToken conf token, record EvDbClose w3)
  | Some e =>
      let w4 := record (EvLogout token) w3 in
      if IsDup e
      then let '(found, w5) := coll_FindId_One w4 in
           (match found with
            | Ok conf' => (Ok (Token conf'), conf')
            | Fail e' => (Fail e', conf)
            end, record EvDbClose w5)
      else (Fail e, conf, record EvDbClose w4)
  end.
Proof.
  intros Htok Hconn Hlogin. unfold getToken.
  rewrite decide_False by (by intros []).
  unfold bind, ret, collection, AppLogin, app_InternalAppName, Logout, coll_Close.
  cbn [outside record trace]. rewrite Hconn.
  cbn -[coll_Upsert coll_FindId_One]. rewrite Hlogin.
  cbn -[coll_Upsert coll_FindId_One].
  destruct (coll_Upsert _ _ _) as [[e|] w3]; [|done].
  destruct (IsDup e); cbn [negb]; [|done].
  by destruct (coll_FindId_One _) as [[c|e'] w5].
Qed.

(** The conditional upsert of [getToken]: it writes only when the stored
    record has no token, and then writes the token field alone. *)
Lemma tokenUpsert_conditional token w :
  let '(err, w') := coll_Upsert tokenUnset [SetToken token] w in
  outside w' = outside w /\
  trace w' = trace w ++ [EvUpsert tokenUnset [SetToken token]] /\
  (err = None <->
   o_storeFault (outside w) (trace w) = None /\ tokenFree (store w)) /\
  (err = None ->
   store w' = Some (applyUpdate (default emptyDoc (store w)) (SetToken token))) /\
  (err <> None -> store w' = store w) /\
  (o_storeFault (outside w) (trace w) = None -> ~ tokenFree (store w) ->
   exists e, err = Some e /\ IsDup e = true).
Proof.
  unfold coll_Upsert, tokenFree.
  destruct (o_storeFault _ _) as [e|] eqn:Hf; cbn.
  { repeat split; try done. by intros [? _]. }
  destruct (store w) as [d|] eqn:Hs; cbn.
  - destruct (doc_token d) as [t|] eqn:Ht; cbn.
    + destruct (decide (t = "")) as [->|Hne].
      * rewrite bool_decide_eq_true_2 by done. cbn.
        repeat split; auto; try done. intros _ []. auto.
      * rewrite bool_decide_eq_false_2 by congruence. cbn.
        repeat split; try done; eauto.
        by intros (_ & [?|[= ?]]).
    + repeat split; auto; try done. intros _ []. auto.
  - repeat split; auto; try done. intros _ []. auto.
Qed.

Lemma FindId_run w :
  trace (coll_FindId_One w).2 = trace w ++ [EvFindId] /\
  store (coll_FindId_One w).2 = store w /\
  (forall c, (coll_FindId_One w).1 = Ok c ->
     exists d, store w = Some d /\ c = docToConfig d) /\
  (forall d, o_storeFault (outside w) (trace w) = None -> store w = Some d ->
     (coll_FindId_One w).1 = Ok (docToConfig d)).
Proof.
  unfold coll_FindId_One.
  destruct (o_storeFault _ _) as [e|]; cbn.
  { split; [done|]. split; [done|]. split; [intros c [=] | intros d [=]]. }
  destruct (store w) as [d|] eqn:Hs; cbn.
  - split; [done|]. split; [done|]. split.
    + intros c [= <-]. by exists d.
    + by intros d' _ [= <-].
  - split; [done|]. split; [done|]. split; [intros c [=] | intros d _ [=]].
Qed.

(** C2: a non-empty cached token is returned at once, the world untouched
    (no call leaves the package).  With an empty one, once the connection
    and the login have succeeded, the fresh token goes into an upsert whose
    selector lets it write only when the stored record has no token (none,
    missing or empty); on success that token is adopted.  When the upsert
    fails on a duplicate key, the store is as before, the fresh token is
    logged out, the record is loaded again, and the result is the token of
    that record (or the error of the load). *)
Theorem getToken_protocol conf w :
  (Token conf ≠ "" -> getToken conf w = (Ok (Token conf), conf, w)) /\
  (forall token,
     Token conf = "" ->
     o_dbConn (outside w) (trace w) = None ->
     o_appLogin (outside w) (trace w ++ [EvDbConn]) = Ok token ->
     let issued :=
       record (EvAppLogin (o_InternalAppName (outside w))) (record EvDbConn w) in
     let attempt := coll_Upsert tokenUnset [SetToken token] issued in
     let revoked := record (EvLogout token) attempt.2 in
     let reload := coll_FindId_One revoked in
     trace attempt.2 = trace issued ++ [EvUpsert tokenUnset [SetToken token]] /\
     (attempt.1 = None <->
      o_storeFault (outside w) (trace issued) = None /\ tokenFree (store w)) /\
     (attempt.1 = None ->
      store attempt.2
      = Some (applyUpdate (default emptyDoc (store w)) (SetToken token)) /\
      getToken conf w = (Ok token, withToken conf token, record EvDbClose attempt.2)) /\
     (forall e, attempt.1 = Some e -> IsDup e = true ->
        store attempt.2 = store w /\
        trace reload.2 = trace attempt.2 ++ [EvLogout token; EvFindId] /\
        getToken conf w
        = (match reload.1 with
           | Ok conf' => (Ok (Token conf'), conf')
           | Fail e' => (Fail e', conf)
           end, record EvDbClose reload.2) /\
        (forall d,
           o_storeFault (outside w) (trace revoked) = None -> store w = Some d ->
           getToken conf w
           = (Ok (default "" (doc_token d)), docToConfig d,
              record EvDbClose reload.2)))).
Proof.
  split; [apply getToken_cached|].
  intros token Htok Hconn Hlogin issued attempt revoked reload.
  pose proof (getToken_fresh conf w token Htok Hconn Hlogin) as Hrun.
  cbn zeta in Hrun. fold issued in Hrun. fold attempt in Hrun.
  pose proof (tokenUpsert_conditional token issued) as Hup. fold attempt in Hup.
  subst reload revoked. destruct attempt as [err up]. cbn [fst snd] in *.
  destruct Hup as (Hout & Htr & Hok & Hset & Hkeep & _).
  split; [exact Htr|]. split; [exact Hok|]. split.
  - intros ->. split; [by apply Hset | exact Hrun].
  - intros e -> Hdup. rewrite Hdup in Hrun.
    set (revoked := record (EvLogout token) up) in *.
    destruct (FindId_run revoked) as (Ht & Hs & _ & Hfound).
    split; [by apply Hkeep|]. split.
    { rewrite Ht. subst revoked. cbn [record trace]. by rewrite <- app_assoc. }
    destruct (coll_FindId_One revoked) as [found w5]. cbn [fst snd] in *.
    split; [exact Hrun|]. intros d Hfault Hd. rewrite Hrun.
    rewrite (Hfound d); [done | subst revoked; cbn [record outside];
                                  rewrite Hout; exact Hfault |].
    subst revoked. cbn [record store]. rewrite Hkeep by done. exact Hd.
Qed.

Lemma getToken_protocol_witness :
  Token Sample.tokenless = "" /\
  getToken Sample.tokenless Sample.taken
  = (Ok "old",
     {| ID := "bs"; Image := ""; Token := "old"; Envs := []; Pools := [] |},
     {| outside := Sample.calm; store := store Sample.taken;
        trace := [EvDbConn; EvAppLogin "tsr";
                  EvUpsert tokenUnset [SetToken "tok1"];
                  EvLogout "tok1"; EvFindId; EvDbClose] |}).
Proof.
  split; [reflexivity|].
  destruct (getToken_protocol Sample.tokenless Sample.taken) as [_ H].
  destruct (H "tok1" eq_refl eq_refl eq_refl) as (_ & _ & _ & Hdup).
  destruct (Hdup (ErrDup "E11000 duplicate key error") eq_refl eq_refl)
    as (_ & _ & _ & Hstored).
  rewrite (Hstored _ eq_refl eq_refl). reflexivity.
Defined.

(** C10: whenever the upsert of the fresh token fails, for a duplicate key
    or for anything else, the next call [getToken] makes is the logout of
    that token.  An error that is not a duplicate key is then returned as
    it is, with the configuration unchanged.  The configuration handed back
    after a failed upsert is the receiver's, untouched, or the record
    loaded from the store: the fresh token is kept nowhere. *)
Theorem getToken_revokes_on_failure conf w token e :
  Token conf = "" ->
  o_dbConn (outside w) (trace w) = None ->
  o_appLogin (outside w) (trace w ++ [EvDbConn]) = Ok token ->
  let issued :=
    record (EvAppLogin (o_InternalAppName (outside w))) (record EvDbConn w) in
  let attempt := coll_Upsert tokenUnset [SetToken token] issued in
  attempt.1 = Some e ->
  (exists rest,
     trace (getToken conf w).2 = trace attempt.2 ++ EvLogout token :: rest) /\
  store (getToken conf w).2 = store w /\
  (IsDup e = false ->
   getToken conf w
   = (Fail e, conf, record EvDbClose (record (EvLogout token) attempt.2))) /\
  ((getToken conf w).1.2 = conf \/
   exists d, store w = Some d /\ (getToken conf w).1.2 = docToConfig d).
Proof.
  intros Htok Hconn Hlogin issued attempt Hfail.
  pose proof (getToken_fresh conf w token Htok Hconn Hlogin) as Hrun.
  cbn zeta in Hrun. fold issued in Hrun. fold attempt in Hrun.
  pose proof (tokenUpsert_conditional token issued) as Hup. fold attempt in Hup.
  destruct attempt as [err up]. cbn [fst snd] in *. subst err.
  destruct Hup as (_ & Htr & _ & _ & Hkeep & _).
  assert (store up = store w) as Hst by (by apply Hkeep).
  set (revoked := record (EvLogout token) up) in *.
  destruct (IsDup e).
  - destruct (FindId_run revoked) as (Ht & Hs & Hc & _).
    destruct (coll_FindId_One revoked) as [found w5]. cbn [fst snd] in *.
    rewrite Hrun. cbn [fst snd record trace store].
    split; [exists [EvFindId; EvDbClose]|split; [by rewrite Hs|split; [done|]]].
    { rewrite Ht. subst revoked. cbn [record trace].
      by rewrite <- !app_assoc. }
    destruct found as [c|e']; [right|by left].
    destruct (Hc c eq_refl) as (d & Hd & ->). exists d. split; [|done].
    by rewrite <- Hst.
  - rewrite Hrun. subst revoked. cbn [fst snd record trace store].
    split; [exists [EvDbClose]; by rewrite <- app_assoc|].
    split; [done|]. split; [done|]. by left.
Qed.

Lemma getToken_revokes_on_failure_witness :
  Token Sample.tokenless = "" /\
  getToken Sample.tokenless Sample.failingStore
  = (Fail (ErrText "no reachable servers"), Sample.tokenless,
     {| outside := outside Sample.failingStore; store := None;
        trace := [EvDbConn; EvAppLogin "tsr";
                  EvUpsert tokenUnset [SetToken "tok1"];
                  EvLogout "tok1"; EvDbClose] |}).
Proof.
  split; [reflexivity|].
  destruct (getToken_revokes_on_failure Sample.tokenless Sample.failingStore
              "tok1" (ErrText "no reachable servers")
              eq_refl eq_refl eq_refl eq_refl) as (_ & _ & H & _).
  rewrite (H eq_refl). reflexivity.
Defined.

(** ** Writes to the stored record (C9) *)

Lemma mapM_pure {A B} (f : A -> M B) (l : list A) w :
  (forall a w, (f a w).2 = w) -> (mapM f l w).2 = w.
Proof.
  intros Hf. revert w. induction l as [|a l IH]; intros w; [done|].
  cbn [mapM]. unfold bind, ret. specialize (Hf a w).
  destruct (f a w) as [b w1]. cbn in Hf. subst w1.
  specialize (IH w). by destruct (mapM f l w) as [bs w2].
Qed.

Lemma bsConfigFromEnvMaps_pure envMap poolEnvMap w :
  (bsConfigFromEnvMaps envMap poolEnvMap w).2 = w.
Proof.
  unfold bsConfigFromEnvMaps, bind, ret, rangeMap.
  match goal with |- context [mapM ?f ?l w] =>
    pose proof (mapM_pure f l w (fun a w => eq_refl)) as H;
    destruct (mapM f l w) as [ps w1]
  end.
  exact H.
Qed.

Lemma SaveImage_frame digest w :
  let w' := (SaveImage digest w).2 in
  store w' ≫= doc_token = store w ≫= doc_token /\
  store w' ≫= doc_envs = store w ≫= doc_envs /\
  store w' ≫= doc_pools = store w ≫= doc_pools /\
  ((SaveImage digest w).1 = None -> store w' ≫= doc_image = Some digest).
Proof.
  rewrite SaveImage_run. cbn zeta. cbn [record outside trace].
  destruct (o_dbConn _ _); [done|]. destruct (o_storeFault _ _); [done|].
  by destruct (store w).
Qed.

Lemma SaveEnvs_run envMap poolEnvMap w :
  SaveEnvs envMap poolEnvMap w =
  let finalConf := (bsConfigFromEnvMaps envMap poolEnvMap w).1 in
  let set := [SetEnvs (Envs finalConf); SetPools (Pools finalConf)] in
  let w1 := record EvDbConn w in
  match o_dbConn (outside w) (trace w) with
  | Some e => (Some e, w1)
  | None =>
      let w2 := record (EvUpsertId set) w1 in
      match o_storeFault (outside w) (trace w1) with
      | Some e => (Some e, record EvDbClose w2)
      | None =>
          (None, record EvDbClose
                   (setStore (applyUpdates set (default emptyDoc (store w))) w2))
      end
  end.
Proof.
  unfold SaveEnvs. unfold bind at 1.
  pose proof (bsConfigFromEnvMaps_pure envMap poolEnvMap w) as Hpure.
  destruct (bsConfigFromEnvMaps envMap poolEnvMap w) as [finalConf w1].
  cbn [fst snd] in *. subst w1. unfold_world.
  destruct (o_dbConn _ _); [done|]. by destruct (o_storeFault _ _).
Qed.

Lemma SaveEnvs_frame envMap poolEnvMap w :
  let w' := (SaveEnvs envMap poolEnvMap w).2 in
  let finalConf := (bsConfigFromEnvMaps envMap poolEnvMap w).1 in
  store w' ≫= doc_image = store w ≫= doc_image /\
  store w' ≫= doc_token = store w ≫= doc_token /\
  ((SaveEnvs envMap poolEnvMap w).1 = None ->
   store w' ≫= doc_envs = Some (Envs finalConf) /\
   store w' ≫= doc_pools = Some (Pools finalConf)).
Proof.
  rewrite SaveEnvs_run. cbn zeta. cbn [record outside trace].
  destruct (o_dbConn _ _); [done|]. destruct (o_storeFault _ _); [done|].
  by destruct (store w).
Qed.

Lemma getToken_frame conf w :
  let w' := (getToken conf w).2 in
  store w' ≫= doc_image = store w ≫= doc_image /\
  store w' ≫= doc_envs = store w ≫= doc_envs /\
  store w' ≫= doc_pools = store w ≫= doc_pools.
Proof.
  cbn zeta. destruct (decide (Token conf ≠ "")) as [Hne|Hemp].
  { by rewrite getToken_cached. }
  apply dec_stable in Hemp.
  destruct (o_dbConn (outside w) (trace w)) as [e|] eqn:Hconn.
  { unfold getToken. rewrite decide_False by (by intros []).
    unfold bind, ret, collection. by rewrite Hconn. }
  destruct (o_appLogin (outside w) (trace w ++ [EvDbConn])) as [token|e] eqn:Hlogin.
  - rewrite (getToken_fresh conf w token Hemp Hconn Hlogin). cbn zeta.
    match goal with |- context [coll_Upsert ?s ?u ?w2] =>
      pose proof (tokenUpsert_conditional token w2) as Hup;
      destruct (coll_Upsert s u w2) as [[e|] up]
    end; destruct Hup as (_ & _ & _ & Hset & Hkeep & _).
    + cbn [record store] in Hkeep.
      destruct (IsDup e).
      * pose proof (FindId_run (record (EvLogout token) up)) as (_ & Hs & _).
        destruct (coll_FindId_One _) as [found w5]. cbn [fst snd record store] in *.
        by rewrite Hs, Hkeep.
      * cbn [fst snd record store]. by rewrite Hkeep.
    + cbn [fst snd record store] in *. rewrite Hset by done.
      by destruct (store w).
  - unfold getToken. rewrite decide_False by (by intros []).
    unfold bind, ret, collection, AppLogin, app_InternalAppName, coll_Close.
    cbn [outside record trace]. rewrite Hconn. cbn. by rewrite Hlogin.
Qed.

(** C9: every write to the stored record names the fields it sets and
    leaves the others as they were (missing fields stay missing):
    [SaveImage] writes the image, and token, envs and pools are unchanged;
    [SaveEnvs] writes envs and pools, and image and token are unchanged;
    the upsert of [getToken], the only other write, leaves image, envs and
    pools unchanged. *)
Theorem writes_are_field_scoped w :
  (forall digest,
     let w' := (SaveImage digest w).2 in
     store w' ≫= doc_token = store w ≫= doc_token /\
     store w' ≫= doc_envs = store w ≫= doc_envs /\
     store w' ≫= doc_pools = store w ≫= doc_pools /\
     ((SaveImage digest w).1 = None -> store w' ≫= doc_image = Some digest)) /\
  (forall envMap poolEnvMap,
     let w' := (SaveEnvs envMap poolEnvMap w).2 in
     let finalConf := (bsConfigFromEnvMaps envMap poolEnvMap w).1 in
     store w' ≫= doc_image = store w ≫= doc_image /\
     store w' ≫= doc_token = store w ≫= doc_token /\
     ((SaveEnvs envMap poolEnvMap w).1 = None ->
      store w' ≫= doc_envs = Some (Envs finalConf) /\
      store w' ≫= doc_pools = Some (Pools finalConf))) /\
  (forall conf,
     let w' := (getToken conf w).2 in
     store w' ≫= doc_image = store w ≫= doc_image /\
     store w' ≫= doc_envs = store w ≫= doc_envs /\
     store w' ≫= doc_pools = store w ≫= doc_pools).
Proof.
  split; [intros; apply SaveImage_frame|].
  split; [intros; apply SaveEnvs_frame | intros; apply getToken_frame].
Qed.

Lemma writes_are_field_scoped_witness :
  store (SaveImage "tsuru/bs:v2" Sample.taken).2 ≫= doc_image = Some "tsuru/bs:v2" /\
  store (SaveImage "tsuru/bs:v2" Sample.taken).2 ≫= doc_token = Some "old".
Proof.
  destruct (writes_are_field_scoped Sample.taken) as [H _].
  destruct (H "tsuru/bs:v2") as (Htoken & _ & _ & Himage).
  split; [by apply Himage | by rewrite Htoken].
Defined.

(** ** The node deployer (C7) *)

Ltac step_world :=
  match goal with
  | |- context [match ?x with _ => _ end] =>
      lazymatch x with
      | context [match _ with _ => _ end] => fail
      | _ => destruct x
      end
  end.

(** [CreateContainer] is [containerSpec] followed by the creation. *)
Lemma CreateContainer_from_spec endpoint poolName relaunch w :
  CreateContainer endpoint poolName relaunch w =
  let '(spec, w1) := containerSpec endpoint poolName w in
  match spec with
  | Fail e => (Some e, w1)
  | Ok (opts, hostConfig) =>
      let w2 := afterCreate endpoint opts w1 in
      let created := o_createContainer (outside w1) (trace w1) in
      if relaunch && alreadyExists created then
        let w3 := afterRemove endpoint opts w1 in
        match o_removeContainer (outside w1) (trace w2) with
        | Some e => (Some e, w3)
        | None =>
            let w4 := afterRetry endpoint opts w1 in
            match o_createContainer (outside w1) (trace w3) with
            | Fail e => (Some e, w4)
            | Ok id =>
                (o_startContainer (outside w1) (trace w4),
                 record (EvStartContainer endpoint id hostConfig) w4)
            end
        end
      else
        match created with
        | Fail e => (Some e, w2)
        | Ok id =>
            (o_startContainer (outside w1) (trace w2),
             record (EvStartContainer endpoint id hostConfig) w2)
        end
  end.
Proof.
  unfold CreateContainer, containerSpec, afterRetry, afterRemove, afterCreate.
  unfold bind, ret, client_CreateContainer, client_RemoveContainer,
    client_StartContainer.
  cbn [outside record trace fst snd opts_Name].
  repeat (step_world;
          cbn [outside record trace fst snd opts_Name andb alreadyExists]);
    reflexivity.
Qed.

(** C7: when the first creation is refused because the container already
    exists, then without [relaunch] that error is the result and the
    creation was the last call made (no removal, no second creation, no
    start); with [relaunch] the container named [big-sibling] is removed
    with force, a failure of that removal is the result, otherwise the
    creation is tried once more and its failure, whatever it is, is the
    result; only a second creation that succeeds leads to the start. *)
Theorem CreateContainer_already_exists endpoint poolName w opts hostConfig w1 :
  containerSpec endpoint poolName w = (Ok (opts, hostConfig), w1) ->
  o_createContainer (outside w1) (trace w1) = Fail ErrContainerAlreadyExists ->
  CreateContainer endpoint poolName false w
  = (Some ErrContainerAlreadyExists, afterCreate endpoint opts w1) /\
  trace (afterCreate endpoint opts w1)
  = trace w1 ++ [EvCreateContainer endpoint opts] /\
  trace (afterRetry endpoint opts w1)
  = trace w1 ++ [EvCreateContainer endpoint opts;
                 EvRemoveContainer endpoint "big-sibling" true;
                 EvCreateContainer endpoint opts] /\
  CreateContainer endpoint poolName true w
  = match o_removeContainer (outside w1) (trace (afterCreate endpoint opts w1)) with
    | Some e => (Some e, afterRemove endpoint opts w1)
    | None =>
        match o_createContainer (outside w1)
                (trace (afterRemove endpoint opts w1)) with
        | Fail e => (Some e, afterRetry endpoint opts w1)
        | Ok id =>
            (o_startContainer (outside w1) (trace (afterRetry endpoint opts w1)),
             record (EvStartContainer endpoint id hostConfig)
                    (afterRetry endpoint opts w1))
        end
    end.
Proof.
  intros Hspec Hexists.
  rewrite !CreateContainer_from_spec, Hspec. cbn zeta. rewrite Hexists.
  cbn [andb alreadyExists].
  split; [done|]. split; [done|]. split; [|done].
  unfold afterRetry, afterRemove, afterCreate. cbn [record trace].
  by rewrite <- !app_assoc.
Qed.

Lemma CreateContainer_already_exists_witness :
  (CreateContainer "http://n1:4243" "p1" false Sample.occupied).1
  = Some ErrContainerAlreadyExists /\
  (CreateContainer "http://n1:4243" "p1" true Sample.occupied).1 = None.
Proof.
  edestruct (CreateContainer_already_exists "http://n1:4243" "p1" Sample.occupied)
    as (Hkeep & _ & _ & Hrelaunch);
    [vm_compute; reflexivity | vm_compute; reflexivity |].
  rewrite Hkeep, Hrelaunch. split; [reflexivity | vm_compute; reflexivity].
Defined.

(** ** Traces only grow *)

Lemma growing_ret {A} (a : A) : growing (ret a).
Proof. intros w. split; [done|]. exists []. by rewrite app_nil_r. Qed.

Lemma growing_bind {A B} (m : M A) (k : A -> M B) :
  growing m -> (forall a, growing (k a)) -> growing (bind m k).
Proof.
  intros Hm Hk w. unfold bind. destruct (Hm w) as (Ho & c1 & Ht).
  destruct (m w) as [a w1]. cbn [snd] in *.
  destruct (Hk a w1) as (Ho' & c2 & Ht').
  split; [congruence|]. exists (c1 ++ c2). by rewrite Ht', Ht, app_assoc.
Qed.

Lemma growing_record {A} (f : World -> A) (e : event) :
  growing (fun w => (f w, record e w)).
Proof. intros w. split; [done|]. by exists [e]. Qed.

Lemma growing_read {A} (f : World -> A) : growing (fun w => (f w, w)).
Proof. intros w. split; [done|]. exists []. by rewrite app_nil_r. Qed.

Lemma growing_Upsert selector set : growing (coll_Upsert selector set).
Proof.
  intros w. unfold coll_Upsert.
  destruct (o_storeFault _ _); [|destruct (store w); [destruct (existsb _ _)|]];
    (split; [done|]; by exists [EvUpsert selector set]).
Qed.

Lemma growing_UpsertId set : growing (coll_UpsertId set).
Proof.
  intros w. unfold coll_UpsertId.
  destruct (o_storeFault _ _); (split; [done|]; by exists [EvUpsertId set]).
Qed.

Lemma growing_FindId : growing coll_FindId_One.
Proof.
  intros w. unfold coll_FindId_One.
  destruct (o_storeFault _ _); [|destruct (store w)];
    (split; [done|]; by exists [EvFindId]).
Qed.

Ltac growing_step :=
  first
    [ apply growing_ret
    | apply growing_Upsert | apply growing_UpsertId | apply growing_FindId
    | apply growing_record | apply growing_read
    | apply growing_bind; [|intros ?]
    | match goal with
      | |- growing (match ?x with _ => _ end) => destruct x
      | |- growing (if ?x then _ else _) => destruct x
      | |- growing (let _ := _ in _) => cbn zeta
      end ].

Ltac growing_auto := repeat growing_step.

Lemma growing_getToken conf : growing (getToken conf).
Proof.
  unfold getToken, collection, AppLogin, Logout, app_InternalAppName, coll_Close.
  growing_auto.
Qed.

Lemma growing_SaveImage digest : growing (SaveImage digest).
Proof. unfold SaveImage, collection, coll_Close. growing_auto. Qed.

Lemma growing_LoadConfig : growing LoadConfig.
Proof. unfold LoadConfig, collection, coll_Close. growing_auto. Qed.

Lemma growing_pullBsImage image endpoint : growing (pullBsImage image endpoint).
Proof.
  unfold pullBsImage, docker_NewClient, client_PullImage.
  growing_auto.
Qed.

Lemma growing_EnvListForEndpoint conf endpoint poolName :
  growing (EnvListForEndpoint conf endpoint poolName).
Proof.
  unfold EnvListForEndpoint, config_GetString, SysLogPort, config_GetInt, rangeMap.
  repeat first [apply growing_getToken | growing_step].
Qed.


(** ** The cluster orchestrator (C8) *)
















(** ** The environment resolver (C1) *)

Lemma Cut_app_sep name value c :
  Count name c = 0 ->
  Cut (name +:+ String c value) (String c "") = Some (name, value).
Proof.
  induction name as [|a name IH]; cbn [Count]; intros Hc.
  - change ("" +:+ String c value) with (String c value).
    rewrite Cut_cons. by rewrite decide_True.
  - change (String a name +:+ String c value)
      with (String a (name +:+ String c value)).
    rewrite Cut_cons. destruct (decide (a = c)); [lia|].
    by rewrite IH by lia.
Qed.

Lemma entryName_envEntry kv :
  Contains kv.1 "=" = false -> entryName (envEntry kv) = kv.1.
Proof.
  intros Hc%Count_Contains. unfold entryName, envEntry.
  change ("=" +:+ kv.2) with (String "=" kv.2). by rewrite Cut_app_sep.
Qed.

Lemma entryName_seed key value :
  Contains key "=" = false -> entryName (key +:+ String "=" value) = key.
Proof.
  intros Hc%Count_Contains. unfold entryName. by rewrite Cut_app_sep.
Qed.

Lemma applyEnvs_dom envs (m : EnvMap) key :
  is_Some (applyEnvs envs m !! key) ->
  is_Some (m !! key) \/ exists env, env ∈ envs /\ Name env = key.
Proof.
  revert m. induction envs as [|e envs IH]; intros m; [by left|].
  cbn. intros [H|(env & Hin & Hn)]%IH.
  - rewrite setEnv_lookup in H. unfold entryRule in H.
    destruct (decide (key = Name e)) as [->|]; [right|by left].
    exists e. split; [apply elem_of_cons; by left | done].
  - right. exists env. split; [apply elem_of_cons; by right | done].
Qed.

Lemma applyPools_dom pools (pm : PoolEnvMap) pool key :
  is_Some (foldl applyPool pm pools !! pool ≫= (.!! key)) ->
  is_Some (pm !! pool ≫= (.!! key)) \/
  exists env, env ∈ List.concat (map pool_Envs pools) /\ Name env = key.
Proof.
  revert pm. induction pools as [|p pools IH]; intros pm; [by left|].
  cbn. intros [H|(env & Hin & Hn)]%IH.
  - unfold applyPool in H. rewrite lookup_insert in H.
    destruct (decide (pool_Name p = pool)) as [<-|]; [|by left].
    cbn in H. apply applyEnvs_dom in H as [H|(env & Hin & Hn)].
    + left. destruct (pm !! pool_Name p); [done|].
      cbn in H. rewrite lookup_empty in H. by destruct H.
    + right. exists env. split; [apply elem_of_app; by left | done].
  - right. exists env. split; [apply elem_of_app; by right | done].
Qed.

Lemma if_ne_eq {A} (x y : string) (a b : A) :
  (if decide (x ≠ y) then a else b) = (if decide (x = y) then b else a).
Proof.
  destruct (decide (x = y));
    [by rewrite decide_False by (by intros []) | by rewrite decide_True].
Qed.

Lemma if_negb_andb {A} (p q : bool) (a b : A) :
  (if negb p && negb q then a else b) = (if p || q then b else a).
Proof. by destruct p, q. Qed.

(** [EnvListForEndpoint], as what it does with the result of [getToken]. *)
Lemma EnvListForEndpoint_run conf endpoint poolName w :
  EnvListForEndpoint conf endpoint poolName w =
  let conf' := afterToken conf w in
  let w1 := (getToken conf w).2 in
  match (getToken conf w).1.1 with
  | Fail e => (Fail e, conf', w1)
  | Ok token =>
      match UpdateEnvMaps conf' ∅ ∅ with
      | (Some e, _, _) => (Fail e, conf', w1)
      | (None, envMap, poolEnvMap) =>
          (Ok ((seedEnv (outside w) endpoint token
                ++ map envEntry (o_range (outside w) _ (map_to_list envMap)))
               ++ map envEntry
                    (o_range (outside w) _
                       (map_to_list (default ∅ (poolEnvMap !! poolName))))),
           conf', w1)
      end
  end.
Proof.
  unfold EnvListForEndpoint, afterToken, SysLogPort, config_GetString,
    config_GetInt, rangeMap, bind, ret. cbn zeta.
  destruct (growing_getToken conf w) as [Hout _].
  destruct (getToken conf w) as [[[token|e] conf'] w1]; cbn [fst snd] in *;
    [|done].
  destruct (UpdateEnvMaps conf' ∅ ∅) as [[[e|] envMap] poolEnvMap]; [done|].
  rewrite Hout. unfold seedEnv. cbn zeta.
  by rewrite if_ne_eq, if_negb_andb.
Qed.

Lemma entriesFor_app key l1 l2 :
  entriesFor key (l1 ++ l2) = entriesFor key l1 + entriesFor key l2.
Proof. unfold entriesFor. by rewrite filter_app, length_app. Qed.

Lemma entriesFor_cons key entry l :
  entriesFor key (entry :: l) =
  (if decide (entryName entry = key) then 1 else 0) + entriesFor key l.
Proof.
  unfold entriesFor. rewrite filter_cons. by destruct (decide _).
Qed.

Lemma entriesFor_four a b c d key :
  key ∈ reservedKeys ->
  entriesFor key [ "DOCKER_ENDPOINT=" +:+ a; "TSURU_ENDPOINT=" +:+ b;
                   "TSURU_TOKEN=" +:+ c;
                   "SYSLOG_LISTEN_ADDRESS=udp://0.0.0.0:" +:+ d ] = 1.
Proof.
  intros Hkey.
  change (entriesFor key
            [ "DOCKER_ENDPOINT" +:+ String "=" a;
              "TSURU_ENDPOINT" +:+ String "=" b;
              "TSURU_TOKEN" +:+ String "=" c;
              "SYSLOG_LISTEN_ADDRESS" +:+ String "=" ("udp://0.0.0.0:" +:+ d) ]
          = 1).
  rewrite !entriesFor_cons, !entryName_seed by reflexivity.
  unfold reservedKeys in Hkey. rewrite !elem_of_cons, elem_of_nil in Hkey.
  destruct Hkey as [->|[->|[->|[->|[]]]]]; reflexivity.
Qed.

Lemma entriesFor_seed o endpoint token key :
  key ∈ reservedKeys -> entriesFor key (seedEnv o endpoint token) = 1.
Proof. intros Hkey. unfold seedEnv. cbn zeta. by apply entriesFor_four. Qed.

Lemma entriesFor_merged key (merged : list (string * string)) :
  forbidden key = true ->
  Forall (fun kv => forbidden kv.1 = false /\ Contains kv.1 "=" = false) merged ->
  entriesFor key (map envEntry merged) = 0.
Proof.
  intros Hkey. induction 1 as [|kv merged [Hf Hc] _ IH]; [done|].
  cbn [map]. rewrite entriesFor_cons, entryName_envEntry, IH by done.
  destruct (decide (kv.1 = key)); [congruence | done].
Qed.

(** The names [EnvListForEndpoint] merges are names of the configuration. *)
Lemma merged_names conf poolName (o : Outside) kv :
  fairOutside o ->
  kv ∈ o_range o _ (map_to_list (applyEnvs (Envs conf) ∅))
       ++ o_range o _
            (map_to_list (default ∅ (foldl applyPool ∅ (Pools conf) !! poolName))) ->
  exists env, env ∈ patchEnvs conf /\ Name env = kv.1.
Proof.
  intros [Hrange _] Hin. rewrite !(Hrange _) in Hin. destruct kv as [k v].
  unfold patchEnvs. apply elem_of_app in Hin as [Hin|Hin];
    apply elem_of_map_to_list in Hin.
  - destruct (applyEnvs_dom (Envs conf) ∅ k) as [H|(env & He & Hn)]; [by eauto| |].
    + rewrite lookup_empty in H. by destruct H.
    + exists env. split; [apply elem_of_app; by left | done].
  - destruct (applyPools_dom (Pools conf) ∅ poolName k) as [H|(env & He & Hn)].
    + destruct (foldl applyPool ∅ (Pools conf) !! poolName) as [m|]; cbn in *;
        [by eauto|]. by rewrite lookup_empty in Hin.
    + rewrite lookup_empty in H. by destruct H.
    + exists env. split; [apply elem_of_app; by right | done].
Qed.

Lemma hasForbidden_false conf env :
  hasForbidden conf = false -> env ∈ patchEnvs conf -> forbidden (Name env) = false.
Proof.
  unfold hasForbidden. intros H Hin.
  destruct (forbidden (Name env)) eqn:E; [|done].
  rewrite <- H. symmetry. apply existsb_exists. exists env.
  split; [by apply list_elem_of_In | done].
Qed.

Lemma hasForbidden_true conf :
  hasForbidden conf = true -> exists bad, firstForbidden conf = Some bad.
Proof.
  unfold hasForbidden, firstForbidden. rewrite find_existsb.
  by intros [bad H]%bool_decide_eq_true; exists bad.
Qed.

(** C1, as stated, fails: a configuration without any forbidden key, whose
    one override is named [TSURU_TOKEN=x], gets a list with two entries for
    [TSURU_TOKEN]: the seeded one and [TSURU_TOKEN=x=y]. *)
Lemma EnvListForEndpoint_shadowed_key :
  hasForbidden Sample.shadowing = false /\
  (EnvListForEndpoint Sample.shadowing "http://n1:4243" "p1" Sample.fresh).1.1
  = Ok [ "DOCKER_ENDPOINT=http://n1:4243"; "TSURU_ENDPOINT=http://tsuru.io/";
         "TSURU_TOKEN=tok0"; "SYSLOG_LISTEN_ADDRESS=udp://0.0.0.0:1514";
         "TSURU_TOKEN=x=y" ] /\
  entriesFor "TSURU_TOKEN"
    [ "DOCKER_ENDPOINT=http://n1:4243"; "TSURU_ENDPOINT=http://tsuru.io/";
      "TSURU_TOKEN=tok0"; "SYSLOG_LISTEN_ADDRESS=udp://0.0.0.0:1514";
      "TSURU_TOKEN=x=y" ] = 2.
Proof. by vm_compute. Qed.

(** The configuration that counts is the one [getToken] leaves: a receiver
    without token that holds a forbidden name still gets a list when the
    record loaded on the duplicate-key path holds none. *)
Lemma EnvListForEndpoint_reloaded_config :
  hasForbidden Sample.staleForbidden = true /\
  (EnvListForEndpoint Sample.staleForbidden "http://n1:4243" "p1" Sample.taken).1.1
  = Ok [ "DOCKER_ENDPOINT=http://n1:4243"; "TSURU_ENDPOINT=http://tsuru.io/";
         "TSURU_TOKEN=old"; "SYSLOG_LISTEN_ADDRESS=udp://0.0.0.0:1514" ].
Proof. by vm_compute. Qed.

(** C1, amended: let the configuration be the one [getToken] leaves (the
    receiver itself when its token is cached).  If it holds a forbidden
    name, [EnvListForEndpoint] returns the error for the first one instead
    of a list; an error of [getToken] is returned as it is.  Otherwise the
    list returned starts with the four computed entries, in the order
    [DOCKER_ENDPOINT], [TSURU_ENDPOINT], [TSURU_TOKEN],
    [SYSLOG_LISTEN_ADDRESS], followed by [name=value] entries whose names
    are names of the configuration and none of the four; and when no name
    of the configuration contains [=], the list has exactly one entry for
    each of the four keys. *)
Theorem EnvListForEndpoint_reserved conf endpoint poolName w :
  fairOutside (outside w) ->
  let conf' := afterToken conf w in
  let result := (EnvListForEndpoint conf endpoint poolName w).1.1 in
  (Token conf ≠ "" -> conf' = conf) /\
  match (getToken conf w).1.1 with
  | Fail e => result = Fail e
  | Ok token =>
      (hasForbidden conf' = true ->
       exists bad,
         firstForbidden conf' = Some bad /\
         result = Fail (cannotSet (Name bad))) /\
      (hasForbidden conf' = false ->
       exists merged,
         result = Ok (seedEnv (outside w) endpoint token ++ map envEntry merged) /\
         Forall (fun kv => forbidden kv.1 = false /\
                           exists env, env ∈ patchEnvs conf' /\ Name env = kv.1)
                merged /\
         (plainNames conf' ->
          forall key, key ∈ reservedKeys ->
            entriesFor key (seedEnv (outside w) endpoint token
                            ++ map envEntry merged) = 1))
  end.
Proof.
  intros Hfair conf' result. split.
  { intros Hne. subst conf'. unfold afterToken. by rewrite getToken_cached. }
  subst result. rewrite EnvListForEndpoint_run. cbn zeta. fold conf'.
  destruct (getToken conf w).1.1 as [token|e]; [|done].
  rewrite UpdateEnvMaps_run. split.
  - intros [bad Hbad]%hasForbidden_true. exists bad. by rewrite Hbad.
  - intros Hclean.
    rewrite (firstForbidden_None _ Hclean), (cutPatch_id _ Hclean). cbn [fmap option_fmap option_map fst].
    eexists (_ ++ _). split; [by rewrite map_app, app_assoc|].
    assert (Forall (fun kv : string * string =>
                      forbidden kv.1 = false /\
                      exists env, env ∈ patchEnvs conf' /\ Name env = kv.1)
              (o_range (outside w) _ (map_to_list (applyEnvs (Envs conf') ∅))
               ++ o_range (outside w) _
                    (map_to_list
                       (default ∅ (foldl applyPool ∅ (Pools conf') !! poolName)))))
      as Hnames.
    { apply Forall_forall. intros kv Hkv.
      destruct (merged_names conf' poolName (outside w) kv Hfair Hkv)
        as (env & Henv & Hname).
      split; [|by exists env]. rewrite <- Hname.
      by apply (hasForbidden_false conf'). }
    split; [exact Hnames|]. intros Hplain key Hkey.
    rewrite entriesFor_app, entriesFor_seed by done.
    rewrite entriesFor_merged; [done | by apply forbidden_reserved |].
    eapply Forall_impl; [exact Hnames|]. cbn. intros kv [Hf (env & Henv & Hname)].
    split; [done|]. rewrite <- Hname.
    unfold plainNames in Hplain. rewrite Forall_forall in Hplain. by apply Hplain.
Qed.

Lemma EnvListForEndpoint_reserved_witness :
  fairOutside (outside Sample.fresh) /\
  hasForbidden Sample.plain = false /\
  plainNames Sample.plain /\
  exists envList,
    (EnvListForEndpoint Sample.plain "http://n1:4243" "p1" Sample.fresh).1.1
    = Ok envList /\
    forall key, key ∈ reservedKeys -> entriesFor key envList = 1.
Proof.
  assert (fairOutside (outside Sample.fresh)) as Hfair by (by split).
  assert (plainNames Sample.plain) as Hplain by (by repeat constructor).
  split; [exact Hfair|]. split; [reflexivity|]. split; [exact Hplain|].
  destruct (EnvListForEndpoint_reserved Sample.plain "http://n1:4243" "p1"
              Sample.fresh Hfair) as [_ H].
  rewrite getToken_cached in H by done. cbn [fst snd] in H.
  destruct H as [_ H]. destruct (H eq_refl) as (merged & Hresult & _ & Hone).
  eexists. split; [exact Hresult|]. by apply Hone.
Defined.

(** * Further properties *)

(** ** [UpdateEnvMaps]: the last entry wins, idempotence, tidy maps *)

Lemma lastFor_snoc key envs env :
  lastFor key (envs ++ [env]) =
  if decide (Name env = key) then Some env else lastFor key envs.
Proof.
  unfold lastFor. rewrite filter_app, filter_cons, filter_nil.
  destruct (decide (Name env = key)); [apply last_snoc | by rewrite app_nil_r].
Qed.

Lemma lastFor_elem key envs env :
  lastFor key envs = Some env -> env ∈ envs /\ Name env = key.
Proof.
  unfold lastFor. intros [l Hl]%last_Some.
  assert (env ∈ filter (fun env => Name env = key) envs) as Hin.
  { rewrite Hl. apply elem_of_app. right. apply elem_of_cons. by left. }
  apply list_elem_of_filter in Hin as [? ?]. done.
Qed.

Lemma applyEnvs_lookup envs (m : EnvMap) key :
  applyEnvs envs m !! key =
  match lastFor key envs with
  | Some env => written env
  | None => m !! key
  end.
Proof.
  induction envs as [|env envs IH] using rev_ind; [done|].
  unfold applyEnvs in *. rewrite foldl_app, lastFor_snoc. cbn [foldl].
  rewrite setEnv_lookup. unfold entryRule, written.
  destruct (decide (key = Name env)) as [->|Hne].
  - by rewrite (decide_True (P := Name env = Name env)) by done.
  - rewrite (decide_False (P := Name env = key)) by (by intros <-). exact IH.
Qed.

Lemma applyEnvs_app envs1 envs2 (m : EnvMap) :
  applyEnvs (envs1 ++ envs2) m = applyEnvs envs2 (applyEnvs envs1 m).
Proof. unfold applyEnvs. apply foldl_app. Qed.

Lemma applyEnvs_idem envs (m : EnvMap) :
  applyEnvs envs (applyEnvs envs m) = applyEnvs envs m.
Proof.
  apply map_eq. intros key. rewrite !applyEnvs_lookup.
  by destruct (lastFor key envs).
Qed.

Lemma poolEntries_cons pool p pools :
  poolEntries pool (p :: pools) =
  if decide (pool_Name p = pool) then pool_Envs p ++ poolEntries pool pools
  else poolEntries pool pools.
Proof.
  unfold poolEntries. rewrite filter_cons. by destruct (decide _).
Qed.

Lemma poolEntries_unnamed pool pools :
  pool ∉ map pool_Name pools -> poolEntries pool pools = [].
Proof.
  induction pools as [|p pools IH]; [done|]. cbn [map].
  rewrite not_elem_of_cons, poolEntries_cons. intros [Hne Hnot].
  rewrite decide_False by done. by apply IH.
Qed.

Lemma poolEntries_elem pool pools env :
  env ∈ poolEntries pool pools -> env ∈ List.concat (map pool_Envs pools).
Proof.
  induction pools as [|p pools IH]; [done|]. rewrite poolEntries_cons. cbn.
  rewrite elem_of_app. destruct (decide _); [|by right; apply IH].
  rewrite elem_of_app. intros [?|?]; [by left | by right; apply IH].
Qed.

Lemma applyPools_lookup pools (pm : PoolEnvMap) pool :
  foldl applyPool pm pools !! pool =
  if decide (pool ∈ map pool_Name pools)
  then Some (applyEnvs (poolEntries pool pools) (default ∅ (pm !! pool)))
  else pm !! pool.
Proof.
  revert pm. induction pools as [|p pools IH]; intros pm.
  - cbn. rewrite decide_False; [done | by intros ?%elem_of_nil].
  - cbn [foldl map]. rewrite IH, poolEntries_cons. unfold applyPool.
    rewrite lookup_insert.
    destruct (decide (pool_Name p = pool)) as [<-|Hne].
    + rewrite (decide_True (P := pool_Name p ∈ pool_Name p :: _))
        by (apply elem_of_cons; by left).
      cbn [default]. destruct (decide (pool_Name p ∈ map pool_Name pools)) as [Hin|Hnot].
      * by rewrite applyEnvs_app.
      * by rewrite (poolEntries_unnamed _ _ Hnot), app_nil_r.
    + destruct (decide (pool ∈ map pool_Name pools)) as [Hin|Hnot].
      * rewrite decide_True by (apply elem_of_cons; by right). done.
      * rewrite decide_False; [done|].
        rewrite not_elem_of_cons. by split.
Qed.

Lemma applyPools_idem pools (pm : PoolEnvMap) :
  foldl applyPool (foldl applyPool pm pools) pools = foldl applyPool pm pools.
Proof.
  apply map_eq. intros pool. rewrite !applyPools_lookup.
  destruct (decide _); [|done]. cbn [default id]. by rewrite applyEnvs_idem.
Qed.

Lemma default_lookup (pm : PoolEnvMap) pool key :
  default ∅ (pm !! pool) !! key = pm !! pool ≫= (.!! key).
Proof. destruct (pm !! pool); [done | apply lookup_empty]. Qed.

Lemma clean_split conf :
  hasForbidden conf = false ->
  existsb forbiddenEnv (Envs conf) = false /\
  existsb forbiddenEnv (List.concat (map pool_Envs (Pools conf))) = false.
Proof.
  unfold hasForbidden, patchEnvs. fold forbiddenEnv. rewrite existsb_app.
  by intros [? ?]%orb_false_iff.
Qed.

Lemma existsb_false_elem {A} (f : A -> bool) l x :
  existsb f l = false -> x ∈ l -> f x = false.
Proof.
  intros H Hin. destruct (f x) eqn:E; [|done].
  rewrite <- H. symmetry. apply existsb_exists. exists x.
  split; [by apply list_elem_of_In | done].
Qed.

(** X1: within a patch without forbidden names the last entry for a key
    decides: after [UpdateEnvMaps] the key holds the value of the last
    global entry that names it, or nothing when that value is empty, and a
    key no entry names is as before; the same holds in each pool's map for
    the entries the patch gives for that pool. *)
Theorem UpdateEnvMaps_last_entry_wins conf envMap poolEnvMap :
  hasForbidden conf = false ->
  let r := UpdateEnvMaps conf envMap poolEnvMap in
  r.1.1 = None /\
  (forall key,
     r.1.2 !! key = match lastFor key (Envs conf) with
                    | Some env => written env
                    | None => envMap !! key
                    end) /\
  (forall pool key,
     r.2 !! pool ≫= (.!! key)
     = match lastFor key (poolEntries pool (Pools conf)) with
       | Some env => written env
       | None => poolEnvMap !! pool ≫= (.!! key)
       end).
Proof.
  intros Hclean. cbn zeta. rewrite UpdateEnvMaps_run.
  rewrite (firstForbidden_None _ Hclean), (cutPatch_id _ Hclean). cbn [fst snd].
  split; [done|]. split; [intros key; apply applyEnvs_lookup|].
  intros pool key. rewrite applyPools_lookup.
  destruct (decide (pool ∈ map pool_Name (Pools conf))) as [Hin|Hnot].
  - cbn. rewrite applyEnvs_lookup. by rewrite default_lookup.
  - by rewrite (poolEntries_unnamed _ _ Hnot).
Qed.

Lemma UpdateEnvMaps_last_entry_wins_witness :
  hasForbidden Sample.patch = false /\
  (UpdateEnvMaps Sample.patch {[ "B" := "2"; "Z" := "9" ]} ∅).1.2 !! "B" = None /\
  (UpdateEnvMaps Sample.patch {[ "B" := "2"; "Z" := "9" ]} ∅).1.2 !! "Z" = Some "9".
Proof.
  split; [reflexivity|].
  destruct (UpdateEnvMaps_last_entry_wins Sample.patch {[ "B" := "2"; "Z" := "9" ]} ∅
              eq_refl) as (_ & H & _).
  split; rewrite H; reflexivity.
Defined.

(** X2: applying a patch without forbidden names a second time, to the maps the
    first application left, changes nothing. *)
Theorem UpdateEnvMaps_idempotent conf envMap poolEnvMap :
  hasForbidden conf = false ->
  let r := UpdateEnvMaps conf envMap poolEnvMap in
  UpdateEnvMaps conf r.1.2 r.2 = (None, r.1.2, r.2).
Proof.
  intros Hclean. cbn zeta. rewrite !UpdateEnvMaps_run.
  rewrite (firstForbidden_None _ Hclean), (cutPatch_id _ Hclean). cbn [fst snd].
  by rewrite applyEnvs_idem, applyPools_idem.
Qed.

Lemma UpdateEnvMaps_idempotent_witness :
  hasForbidden Sample.patch = false /\
  UpdateEnvMaps Sample.patch {[ "A" := "1" ]} {[ "p1" := {[ "C" := "3" ]} ]}
  = (None, {[ "A" := "1" ]}, {[ "p1" := {[ "C" := "3" ]} ]}).
Proof.
  split; [reflexivity|].
  pose proof (UpdateEnvMaps_idempotent Sample.patch {[ "B" := "2" ]} ∅ eq_refl) as H.
  cbn zeta in H.
  replace (UpdateEnvMaps Sample.patch {[ "B" := "2" ]} ∅)
    with ((None : option error), ({[ "A" := "1" ]} : EnvMap),
          ({[ "p1" := {[ "C" := "3" ]} ]} : PoolEnvMap)) in H
    by (by vm_compute).
  exact H.
Defined.

Lemma applyEnvs_tidy envs (m : EnvMap) :
  existsb forbiddenEnv envs = false -> tidy m -> tidy (applyEnvs envs m).
Proof.
  intros Hclean Hm key value. rewrite applyEnvs_lookup.
  destruct (lastFor key envs) as [env|] eqn:Hlast; [|apply Hm].
  apply lastFor_elem in Hlast as [Hin <-]. unfold written.
  destruct (decide (Value env = "")); [done|]. intros [= <-].
  split; [done|]. by apply (existsb_false_elem forbiddenEnv envs).
Qed.

(** X3: maps that hold no empty value and no forbidden key stay so through
    [UpdateEnvMaps], whether it succeeds or stops at a forbidden entry. *)
Theorem UpdateEnvMaps_keeps_tidy conf envMap poolEnvMap :
  tidy envMap -> tidyPools poolEnvMap ->
  let r := UpdateEnvMaps conf envMap poolEnvMap in
  tidy r.1.2 /\ tidyPools r.2.
Proof.
  intros Hm Hpm. cbn zeta. rewrite UpdateEnvMaps_run. cbn [fst snd].
  destruct (clean_split _ (cutPatch_clean conf)) as [Hg Hp].
  split; [by apply applyEnvs_tidy|].
  intros pool m. rewrite applyPools_lookup.
  destruct (decide _); [|apply Hpm]. intros [= <-].
  apply applyEnvs_tidy.
  - destruct (existsb forbiddenEnv (poolEntries pool _)) eqn:E; [|done].
    apply existsb_exists in E as (env & Hin & Hf).
    apply list_elem_of_In, poolEntries_elem in Hin.
    by rewrite (existsb_false_elem forbiddenEnv _ env Hp Hin) in Hf.
  - destruct (poolEnvMap !! pool) as [m0|] eqn:E; cbn; [by apply (Hpm pool)|].
    intros key value. by rewrite lookup_empty.
Qed.

Lemma UpdateEnvMaps_keeps_tidy_witness :
  tidy (UpdateEnvMaps Sample.badPatch ∅ ∅).1.2 /\
  tidyPools (UpdateEnvMaps Sample.badPatch ∅ ∅).2.
Proof.
  apply (UpdateEnvMaps_keeps_tidy Sample.badPatch ∅ ∅).
  - intros key value. by rewrite lookup_empty.
  - intros pool m. by rewrite lookup_empty.
Defined.

(** ** From maps to a configuration and back *)

Lemma mapM_read {A B} (f : A -> M B) (g : A -> World -> B) (l : list A) w :
  (forall a w, f a w = (g a w, w)) ->
  mapM f l w = (map (fun a => g a w) l, w).
Proof.
  intros Hf. induction l as [|a l IH]; [done|].
  cbn [mapM map]. unfold bind, ret. by rewrite Hf, IH.
Qed.

Lemma bsConfigFromEnvMaps_run envMap poolEnvMap w :
  bsConfigFromEnvMaps envMap poolEnvMap w =
  ({| ID := ""; Image := ""; Token := "";
      Envs := map toEnv (o_range (outside w) _ (map_to_list envMap));
      Pools := map (toPoolEnvs (outside w))
                   (o_range (outside w) _ (map_to_list poolEnvMap)) |}, w).
Proof.
  unfold bsConfigFromEnvMaps, bind, ret, rangeMap.
  by rewrite (mapM_read _ (fun p w => toPoolEnvs (outside w) p)).
Qed.

Lemma applyEnvs_rebuilds envs (m : EnvMap) :
  (forall env, env ∈ envs -> m !! Name env = Some (Value env)) ->
  (forall key value, m !! key = Some value ->
     value <> "" /\ {| Name := key; Value := value |} ∈ envs) ->
  applyEnvs envs ∅ = m.
Proof.
  intros Hsound Hcomplete. apply map_eq. intros key. rewrite applyEnvs_lookup.
  destruct (lastFor key envs) as [env|] eqn:Hlast.
  - apply lastFor_elem in Hlast as [Hin <-]. rewrite (Hsound _ Hin).
    destruct (Hcomplete _ _ (Hsound _ Hin)) as [Hne _].
    unfold written. by rewrite decide_False.
  - rewrite lookup_empty. destruct (m !! key) as [value|] eqn:Hm; [|done].
    destruct (Hcomplete _ _ Hm) as [_ Hin]. exfalso.
    unfold lastFor in Hlast. apply last_None in Hlast.
    assert ({| Name := key; Value := value |}
            ∈ filter (fun env => Name env = key) envs) as Hf.
    { by apply list_elem_of_filter. }
    rewrite Hlast in Hf. by apply elem_of_nil in Hf.
Qed.

Lemma ranged_entries (o : Outside) (m : EnvMap) env :
  fairOutside o ->
  env ∈ map toEnv (o_range o _ (map_to_list m)) <-> m !! Name env = Some (Value env).
Proof.
  intros [Hrange _]. rewrite list_elem_of_fmap. split.
  - intros ([k v] & -> & Hin). rewrite (Hrange _) in Hin.
    by apply elem_of_map_to_list in Hin.
  - intros Hm. exists (Name env, Value env). split; [by destruct env|].
    rewrite (Hrange _). by apply elem_of_map_to_list.
Qed.

Lemma poolEntries_elem_iff pool pools env :
  env ∈ poolEntries pool pools <->
  exists p, p ∈ pools /\ pool_Name p = pool /\ env ∈ pool_Envs p.
Proof.
  induction pools as [|p pools IH].
  - split; [by intros ?%elem_of_nil | by intros (? & ?%elem_of_nil & _)].
  - rewrite poolEntries_cons. destruct (decide (pool_Name p = pool)) as [Hp|Hp].
    + rewrite elem_of_app, IH. split.
      * intros [Hin|(q & Hq & Hn & Hin)].
        -- exists p. split; [apply elem_of_cons; by left | done].
        -- exists q. split; [apply elem_of_cons; by right | done].
      * intros (q & [->|Hq]%elem_of_cons & Hn & Hin); [by left|].
        right. by exists q.
    + rewrite IH. split.
      * intros (q & Hq & Hn & Hin). exists q.
        split; [apply elem_of_cons; by right | done].
      * intros (q & [->|Hq]%elem_of_cons & Hn & Hin); [done|]. by exists q.
Qed.

Lemma maps_rebuilt envMap poolEnvMap w :
  fairOutside (outside w) -> tidy envMap -> tidyPools poolEnvMap ->
  let conf := (bsConfigFromEnvMaps envMap poolEnvMap w).1 in
  hasForbidden conf = false /\
  UpdateEnvMaps conf ∅ ∅ = (None, envMap, poolEnvMap).
Proof.
  intros Hfair Hm Hpm. cbn zeta. rewrite bsConfigFromEnvMaps_run. cbn [fst].
  set (conf := {| ID := ""; Envs := _ |}).
  assert (forall p, p ∈ Pools conf ->
            exists mp, poolEnvMap !! pool_Name p = Some mp /\
                       pool_Envs p = map toEnv (o_range (outside w) _ (map_to_list mp)))
    as Hpools.
  { intros p ([k mp] & -> & Hin)%list_elem_of_fmap.
    destruct Hfair as [Hrange _]. rewrite (Hrange _) in Hin.
    apply elem_of_map_to_list in Hin. by exists mp. }
  assert (hasForbidden conf = false) as Hclean.
  { unfold hasForbidden. destruct (existsb _ _) eqn:E; [|done].
    apply existsb_exists in E as (env & Hin & Hf).
    apply list_elem_of_In in Hin. unfold patchEnvs in Hin.
    apply elem_of_app in Hin as [Hin|Hin].
    - apply (ranged_entries _ _ _ Hfair) in Hin.
      destruct (Hm _ _ Hin) as [_ Hn]. congruence.
    - apply list_elem_of_In, in_concat in Hin as (envs & Hp & Hin).
      apply in_map_iff in Hp as (p & <- & Hp).
      apply list_elem_of_In in Hp, Hin.
      destruct (Hpools p Hp) as (mp & Hmp & Henvs). rewrite Henvs in Hin.
      apply (ranged_entries _ _ _ Hfair) in Hin.
      destruct (Hpm _ _ Hmp _ _ Hin) as [_ Hn]. congruence. }
  split; [exact Hclean|].
  rewrite UpdateEnvMaps_run, (firstForbidden_None _ Hclean), (cutPatch_id _ Hclean).
  cbn [fmap option_fmap option_map]. f_equal; [f_equal|].
  - apply applyEnvs_rebuilds.
    + intros env Hin. by apply (ranged_entries _ _ _ Hfair) in Hin.
    + intros key value Hkv. split; [by apply (Hm key)|].
      by apply (ranged_entries (outside w) envMap _ Hfair).
  - apply map_eq. intros pool. rewrite applyPools_lookup, lookup_empty. cbn [default].
    destruct (decide (pool ∈ map pool_Name (Pools conf))) as [Hin|Hnot].
    + apply list_elem_of_fmap in Hin as (p & -> & Hp).
      destruct (Hpools p Hp) as (mp & Hmp & Henvs). rewrite Hmp. f_equal.
      apply applyEnvs_rebuilds.
      * intros env (q & Hq & Hn & Hin)%poolEntries_elem_iff.
        destruct (Hpools q Hq) as (mq & Hmq & Hqenvs).
        rewrite Hn, Hmp in Hmq. injection Hmq as <-. rewrite Hqenvs in Hin.
        by apply (ranged_entries _ _ _ Hfair) in Hin.
      * intros key value Hkv. split; [by apply (Hpm _ _ Hmp key)|].
        apply poolEntries_elem_iff. exists p. split; [done|]. split; [done|].
        rewrite Henvs. by apply (ranged_entries (outside w) mp _ Hfair).
    + destruct (poolEnvMap !! pool) as [mp|] eqn:Hmp; [|done]. exfalso.
      apply Hnot. apply list_elem_of_fmap. exists (toPoolEnvs (outside w) (pool, mp)).
      split; [done|]. apply list_elem_of_fmap. exists (pool, mp). split; [done|].
      destruct Hfair as [Hrange _]. rewrite (Hrange _).
      by apply elem_of_map_to_list.
Qed.

(** X4: a configuration built from tidy maps holds no forbidden name, and
    [UpdateEnvMaps] applied with it to empty maps gives the maps back,
    whatever the order in which [range] walked them. *)
Theorem config_of_maps_round_trip envMap poolEnvMap w :
  fairOutside (outside w) -> tidy envMap -> tidyPools poolEnvMap ->
  let conf := (bsConfigFromEnvMaps envMap poolEnvMap w).1 in
  hasForbidden conf = false /\
  UpdateEnvMaps conf ∅ ∅ = (None, envMap, poolEnvMap).
Proof.
  intros Hfair Hm Hpm conf.
  destruct (maps_rebuilt envMap poolEnvMap w Hfair Hm Hpm) as [Hclean Hback].
  split; [exact Hclean | exact Hback].
Qed.

Lemma tidy_singleton key value :
  value <> "" -> forbidden key = false -> tidy {[ key := value ]}.
Proof.
  intros Hv Hk k v [<- <-]%lookup_singleton_Some. done.
Qed.

Lemma tidyPools_singleton pool m : tidy m -> tidyPools {[ pool := m ]}.
Proof. intros Hm p mp [<- <-]%lookup_singleton_Some. done. Qed.

Lemma config_of_maps_round_trip_witness :
  UpdateEnvMaps
    (bsConfigFromEnvMaps Sample2.envMap Sample2.poolEnvMap Sample.fresh).1 ∅ ∅
  = (None, Sample2.envMap, Sample2.poolEnvMap).
Proof.
  apply (config_of_maps_round_trip Sample2.envMap Sample2.poolEnvMap Sample.fresh).
  - by split.
  - by apply tidy_singleton.
  - by apply tidyPools_singleton, tidy_singleton.
Defined.

(** ** Through the store and back *)

Lemma LoadConfig_run w :
  LoadConfig w =
  let w1 := record EvDbConn w in
  match o_dbConn (outside w) (trace w) with
  | Some e => (Fail e, w1)
  | None =>
      let w2 := record EvDbClose (record EvFindId w1) in
      match o_storeFault (outside w) (trace w1) with
      | Some e => (Fail e, w2)
      | None =>
          (match store w with
           | Some d => Ok (docToConfig d)
           | None => Fail ErrNotFound
           end, w2)
      end
  end.
Proof.
  unfold LoadConfig. unfold_world. cbn zeta.
  destruct (o_dbConn _ _); [reflexivity|].
  destruct (o_storeFault _ _); [reflexivity|]. cbn -[docToConfig].
  destruct (store w); reflexivity.
Qed.

Lemma UpdateEnvMaps_ext conf1 conf2 envMap poolEnvMap :
  Envs conf1 = Envs conf2 -> Pools conf1 = Pools conf2 ->
  UpdateEnvMaps conf1 envMap poolEnvMap = UpdateEnvMaps conf2 envMap poolEnvMap.
Proof. unfold UpdateEnvMaps. by intros -> ->. Qed.

(** X5: what [SaveEnvs] stores is what [LoadConfig] hands back: when both go
    through, the configuration loaded rebuilds, on empty maps, the tidy maps
    that were saved, and its image and token are those of the record as it
    was before. *)
Theorem SaveEnvs_then_LoadConfig envMap poolEnvMap w :
  fairOutside (outside w) -> soundStorage (outside w) ->
  tidy envMap -> tidyPools poolEnvMap ->
  let saved := (SaveEnvs envMap poolEnvMap w).2 in
  (SaveEnvs envMap poolEnvMap w).1 = None /\
  exists conf,
    (LoadConfig saved).1 = Ok conf /\
    UpdateEnvMaps conf ∅ ∅ = (None, envMap, poolEnvMap) /\
    Image conf = default "" (store w ≫= doc_image) /\
    Token conf = default "" (store w ≫= doc_token).
Proof.
  intros Hfair [Hconn Hfault] Hm Hpm. cbn zeta.
  rewrite SaveEnvs_run. cbn zeta. rewrite Hconn, Hfault. cbn [fst snd].
  split; [done|]. rewrite LoadConfig_run. cbn zeta.
  cbn [outside record setStore trace store]. rewrite Hconn, Hfault. cbn [fst].
  eexists. split; [reflexivity|].
  destruct (maps_rebuilt envMap poolEnvMap w Hfair Hm Hpm) as [_ Hback].
  split; [|by destruct (store w)].
  rewrite <- Hback. apply UpdateEnvMaps_ext; by destruct (store w).
Qed.

Lemma SaveEnvs_then_LoadConfig_witness :
  exists conf,
    (LoadConfig (SaveEnvs Sample2.envMap Sample2.poolEnvMap Sample.taken).2).1
    = Ok conf /\
    UpdateEnvMaps conf ∅ ∅ = (None, Sample2.envMap, Sample2.poolEnvMap) /\
    Token conf = "old".
Proof.
  destruct (SaveEnvs_then_LoadConfig Sample2.envMap Sample2.poolEnvMap Sample.taken)
    as (_ & conf & Hload & Hmaps & _ & Htoken).
  - by split.
  - by split.
  - by apply tidy_singleton.
  - by apply tidyPools_singleton, tidy_singleton.
  - exists conf. by repeat split.
Defined.

(** X6: the reference [SaveImage] stores is the one the next deployment
    resolves: when the save and the load go through and the reference is
    not empty, [getImage] on the loaded configuration returns it, whatever
    image the configuration file names. *)
Theorem SaveImage_then_getImage digest w :
  soundStorage (outside w) -> digest <> "" ->
  let saved := (SaveImage digest w).2 in
  (SaveImage digest w).1 = None /\
  exists conf,
    (LoadConfig saved).1 = Ok conf /\
    forall w', getImage conf w' = (digest, w').
Proof.
  intros [Hconn Hfault] Hne. cbn zeta.
  rewrite SaveImage_run. cbn zeta. rewrite Hconn, Hfault. cbn [fst snd].
  split; [done|]. rewrite LoadConfig_run. cbn zeta.
  cbn [outside record setStore trace store]. rewrite Hconn, Hfault. cbn [fst].
  eexists. split; [reflexivity|]. intros w'. unfold getImage.
  cbn [docToConfig Image applyUpdate doc_image default]. by rewrite decide_True.
Qed.

Lemma SaveImage_then_getImage_witness :
  exists conf,
    (LoadConfig (SaveImage "tsuru/bs@sha256:aaa" Sample.fresh).2).1 = Ok conf /\
    getImage conf Sample.fresh = ("tsuru/bs@sha256:aaa", Sample.fresh).
Proof.
  destruct (SaveImage_then_getImage "tsuru/bs@sha256:aaa" Sample.fresh)
    as (_ & conf & Hload & Himage); [by split | done |].
  exists conf. split; [exact Hload | apply Himage].
Defined.

(** X7: [getImage] resolves in the order: image of the configuration, image of
    the configuration file, [tsuru/bs]; it never returns the empty string
    and makes no call. *)
Theorem getImage_precedence conf w :
  (getImage conf w).2 = w /\
  (getImage conf w).1 <> "" /\
  (Image conf <> "" -> (getImage conf w).1 = Image conf) /\
  (Image conf = "" ->
   (getImage conf w).1
   = match o_strings (outside w) !! "docker:bs:image" with
     | Some image => if decide (image = "") then "tsuru/bs" else image
     | None => "tsuru/bs"
     end).
Proof.
  unfold getImage, bind, ret, config_GetString.
  destruct (decide (Image conf <> "")) as [Hne|He]; cbn [fst snd].
  - repeat split; try done.
  - apply dec_stable in He. split; [done|].
    destruct (o_strings (outside w) !! "docker:bs:image") as [image|];
      cbn [default id]; [destruct (decide (image = ""))|];
      repeat split; try done; congruence.
Qed.

Lemma getImage_precedence_witness :
  (getImage Sample.tokenless Sample.fresh).1 = "tsuru/bs".
Proof.
  destruct (getImage_precedence Sample.tokenless Sample.fresh) as (_ & _ & _ & H).
  rewrite H by reflexivity. reflexivity.
Defined.

(** ** More on strings *)

Section CutByteApp.

Variable sep : ascii.

Lemma Count_app s t : Count (s +:+ t) sep = Count s sep + Count t sep.
Proof.
  induction s as [|a s IH]; [done|].
  change (String a s +:+ t) with (String a (s +:+ t)). cbn [Count].
  rewrite IH. lia.
Qed.

Lemma Cut_None_Count s : Count s sep = 0 -> Cut s (String sep "") = None.
Proof.
  intros Hc. destruct (Cut s (String sep "")) as [[a b]|] eqn:E; [|done].
  apply Cut_Count_Some in E as (H & _). lia.
Qed.

Lemma Cut_app_Some s t a b :
  Cut s (String sep "") = Some (a, b) ->
  Cut (s +:+ t) (String sep "") = Some (a, b +:+ t).
Proof.
  revert a b. induction s as [|c s IH]; intros a b.
  - by rewrite Cut_nil.
  - change (String c s +:+ t) with (String c (s +:+ t)). rewrite !Cut_cons.
    destruct (decide (c = sep)); [by intros [= <- <-]|].
    destruct (Cut s (String sep "")) as [[a' b']|]; [|done].
    intros [= <- <-]. by rewrite (IH _ _ eq_refl).
Qed.

Lemma SplitN_pieces n s :
  Count s sep < n ->
  Forall (fun piece => Count piece sep = 0) (SplitN s (String sep "") n).
Proof.
  revert s. induction n as [|n IH]; intros s Hn; [lia|].
  cbn [SplitN]. destruct (Cut s (String sep "")) as [[a b]|] eqn:E.
  - apply Cut_Count_Some in E as (Hc & Ha & _).
    destruct n as [|n]; [lia|]. constructor; [done|]. apply IH. lia.
  - apply Cut_Count_None in E. destruct n; by repeat constructor.
Qed.

Lemma Count_dropBytes n s : Count (dropBytes n s) sep <= Count s sep.
Proof.
  revert s. induction n as [|n IH]; intros [|a s]; cbn [dropBytes Count]; try lia.
  specialize (IH s). lia.
Qed.

End CutByteApp.

Lemma prefix_split p s :
  String.prefix p s = true -> s = p +:+ dropBytes (String.length p) s.
Proof.
  revert s. induction p as [|a p IH]; intros s; [by destruct s|].
  destruct s as [|b s]; [done|]. cbn.
  destruct (ascii_dec a b) as [->|]; [|done]. intros H.
  change (String b p +:+ ?t) with (String b (p +:+ t)). f_equal. by apply IH.
Qed.

Lemma prefix_app p t : String.prefix p (p +:+ t) = true.
Proof.
  induction p as [|a p IH]; [by destruct t|].
  change (String a p +:+ t) with (String a (p +:+ t)). cbn.
  by destruct (ascii_dec a a).
Qed.

Lemma prefix_refl p : String.prefix p p = true.
Proof. induction p as [|a p IH]; [done|]. cbn. by destruct (ascii_dec a a). Qed.

Lemma afterSlashes_app n s t :
  Count t "/" = 0 -> afterSlashes n (s +:+ t) = afterSlashes n s +:+ t.
Proof.
  intros Ht. revert s. induction n as [|n IH]; intros s; [done|].
  cbn [afterSlashes]. destruct (Cut s "/") as [[a b]|] eqn:E.
  - rewrite (Cut_app_Some _ _ _ _ _ E). apply IH.
  - rewrite Cut_None_Count; [done|].
    rewrite Count_app, Ht. apply Cut_Count_None in E. lia.
Qed.

(** ** Pinning, once *)

Lemma digest_of_lines (lines : list string) value :
  head (omap (fun line => if HasPrefix line "Digest: "
                          then Some (dropBytes 8 line) else None) lines)
  = Some value ->
  exists line, line ∈ lines /\ HasPrefix line "Digest: " = true /\
               value = dropBytes 8 line.
Proof.
  induction lines as [|line lines IH]; [done|].
  cbn [omap list_omap]. destruct (HasPrefix line "Digest: ") eqn:Hp.
  - intros [= <-]. exists line. split; [apply elem_of_cons; by left | done].
  - intros (l & Hin & Hl)%IH. exists l. split; [apply elem_of_cons; by right | done].
Qed.

Lemma firstDigest_line output value :
  firstDigest output = Some value ->
  ("Digest: " +:+ value) ∈ Split output newline /\ Count value "010" = 0.
Proof.
  unfold firstDigest. intros (line & Hin & Hp & ->)%digest_of_lines.
  unfold HasPrefix in Hp. apply prefix_split in Hp.
  change (String.length "Digest: ") with 8 in Hp. split.
  - by rewrite <- Hp.
  - pose proof (SplitN_pieces "010" (S (String.length output)) output) as Hpieces.
    specialize (Hpieces ltac:(pose proof (Count_le_length "010" output); lia)).
    rewrite Forall_forall in Hpieces. specialize (Hpieces line Hin).
    pose proof (Count_dropBytes "010" 8 line). lia.
Qed.

(** X8: [pinImage] leaves the reference as it is unless pinning applies and the
    output has a digest line; otherwise it only appends [@] and the value of
    a line [Digest: value] of the output, which holds no line break.  The
    reference given is always a prefix of the one returned. *)
Theorem pinImage_only_appends image output :
  (shouldPinBsImage image = false -> pinImage image output = image) /\
  (firstDigest output = None -> pinImage image output = image) /\
  String.prefix image (pinImage image output) = true /\
  (pinImage image output = image \/
   exists value,
     pinImage image output = image +:+ "@" +:+ value /\
     shouldPinBsImage image = true /\
     ("Digest: " +:+ value) ∈ Split output newline /\
     Count value "010" = 0).
Proof.
  assert (pinImage image output = image \/
          exists value,
            pinImage image output = image +:+ "@" +:+ value /\
            shouldPinBsImage image = true /\
            ("Digest: " +:+ value) ∈ Split output newline /\
            Count value "010" = 0) as Hshape.
  { destruct (shouldPinBsImage image) eqn:Hpin.
    - rewrite (pinImage_first _ _ Hpin).
      destruct (firstDigest output) as [value|] eqn:Hd; [right|by left].
      exists value. destruct (firstDigest_line _ _ Hd). done.
    - left. unfold pinImage. by rewrite Hpin. }
  split; [intros Hpin; unfold pinImage; by rewrite Hpin|].
  split.
  { intros Hnone. destruct (shouldPinBsImage image) eqn:Hpin.
    - by rewrite (pinImage_first _ _ Hpin), Hnone.
    - unfold pinImage. by rewrite Hpin. }
  split; [|exact Hshape].
  destruct Hshape as [->|(value & -> & _)]; [|apply prefix_app].
  apply prefix_refl.
Qed.

Lemma pinImage_only_appends_witness :
  pinImage "tsuru/bs:v1" Sample.twoDigests = "tsuru/bs:v1".
Proof.
  destruct (pinImage_only_appends "tsuru/bs:v1" Sample.twoDigests) as [H _].
  by apply H.
Defined.

(** X9: a reference pinned to a digest such as [sha256:...] (a value with a
    [:] and no [/]) is not pinned again: [shouldPinBsImage] refuses it and
    [pinImage] leaves it alone whatever the next output says. *)
Theorem pinned_reference_stays image output value :
  shouldPinBsImage image = true ->
  firstDigest output = Some value ->
  Contains value ":" = true ->
  Count value "/" = 0 ->
  pinImage image output = image +:+ "@" +:+ value /\
  shouldPinBsImage (pinImage image output) = false /\
  forall output', pinImage (pinImage image output) output' = pinImage image output.
Proof.
  intros Hpin Hd Hcolon Hslash.
  assert (pinImage image output = image +:+ "@" +:+ value) as ->.
  { by rewrite (pinImage_first _ _ Hpin), Hd. }
  assert (shouldPinBsImage (image +:+ "@" +:+ value) = false) as Hnot.
  { rewrite shouldPinBsImage_afterSlashes, afterSlashes_app.
    - apply negb_false_iff.
      destruct (Contains (afterSlashes 2 image +:+ "@" +:+ value) ":") eqn:E;
        [done|].
      apply Count_Contains in E. rewrite !Count_app in E.
      assert (Count value ":" = 0) as Hv by lia.
      apply Count_Contains in Hv. congruence.
    - change ("@" +:+ value) with (String "@" value). cbn [Count].
      rewrite decide_False by done. lia. }
  split; [done|]. split; [done|]. intros output'. unfold pinImage at 1.
  by rewrite Hnot.
Qed.

Lemma pinned_reference_stays_witness :
  shouldPinBsImage (pinImage "tsuru/bs" Sample.twoDigests) = false.
Proof.
  destruct (pinned_reference_stays "tsuru/bs" Sample.twoDigests "sha256:aaa"
              eq_refl eq_refl eq_refl eq_refl) as (_ & H & _).
  exact H.
Defined.

(** ** Which calls a function makes *)

Lemma emits_ret {A} P (a : A) : emits P (ret a).
Proof. intros w. exists []. by rewrite app_nil_r. Qed.

Lemma emits_bind {A B} P (m : M A) (k : A -> M B) :
  emits P m -> (forall a, emits P (k a)) -> emits P (bind m k).
Proof.
  intros Hm Hk w. unfold bind. destruct (Hm w) as (c1 & Ht & Hc1).
  destruct (m w) as [a w1]. cbn [snd] in *.
  destruct (Hk a w1) as (c2 & Ht' & Hc2).
  exists (c1 ++ c2). split; [by rewrite Ht', Ht, app_assoc | by apply Forall_app].
Qed.

Lemma emits_record {A} (P : event -> Prop) (f : World -> A) (e : event) :
  P e -> emits P (fun w => (f w, record e w)).
Proof. intros He w. exists [e]. split; [done | by repeat constructor]. Qed.

Lemma emits_read {A} P (f : World -> A) : emits P (fun w => (f w, w)).
Proof. intros w. exists []. by rewrite app_nil_r. Qed.

Lemma emits_Upsert (P : event -> Prop) selector set :
  P (EvUpsert selector set) -> emits P (coll_Upsert selector set).
Proof.
  intros He w. exists [EvUpsert selector set]. split; [|by repeat constructor].
  unfold coll_Upsert.
  by destruct (o_storeFault _ _); [|destruct (store w); [destruct (existsb _ _)|]].
Qed.

Lemma emits_UpsertId (P : event -> Prop) set :
  P (EvUpsertId set) -> emits P (coll_UpsertId set).
Proof.
  intros He w. exists [EvUpsertId set]. split; [|by repeat constructor].
  unfold coll_UpsertId. by destruct (o_storeFault _ _).
Qed.

Lemma emits_FindId (P : event -> Prop) : P EvFindId -> emits P coll_FindId_One.
Proof.
  intros He w. exists [EvFindId]. split; [|by repeat constructor].
  unfold coll_FindId_One. by destruct (o_storeFault _ _); [|destruct (store w)].
Qed.

Ltac emits_step :=
  first
    [ apply emits_ret
    | apply emits_Upsert; reflexivity
    | apply emits_UpsertId; reflexivity
    | apply emits_FindId; reflexivity
    | apply emits_record; reflexivity
    | apply emits_read
    | apply emits_bind; [|intros ?]
    | match goal with
      | |- emits _ (match ?x with _ => _ end) => destruct x
      | |- emits _ (if ?x then _ else _) => destruct x
      | |- emits _ (let _ := _ in _) => cbn zeta
      end ].

Lemma getToken_no_container_call conf :
  emits (fun e => isContainerCall e = false) (getToken conf).
Proof.
  unfold getToken, collection, AppLogin, Logout, app_InternalAppName, coll_Close.
  repeat emits_step.
Qed.

Lemma EnvListForEndpoint_no_container_call conf endpoint poolName :
  emits (fun e => isContainerCall e = false)
        (EnvListForEndpoint conf endpoint poolName).
Proof.
  unfold EnvListForEndpoint, config_GetString, SysLogPort, config_GetInt, rangeMap.
  repeat first [apply getToken_no_container_call | emits_step].
Qed.

Lemma containerSpec_no_container_call endpoint poolName :
  emits (fun e => isContainerCall e = false) (containerSpec endpoint poolName).
Proof.
  unfold containerSpec, docker_NewClient, LoadConfig, getImage, pullBsImage,
    SaveImage, client_PullImage, collection, coll_Close, config_GetString.
  repeat first [apply EnvListForEndpoint_no_container_call | emits_step].
Qed.

Lemma getToken_no_remove conf : emits (fun e => isRemove e = false) (getToken conf).
Proof.
  unfold getToken, collection, AppLogin, Logout, app_InternalAppName, coll_Close.
  repeat emits_step.
Qed.

Lemma EnvListForEndpoint_no_remove conf endpoint poolName :
  emits (fun e => isRemove e = false) (EnvListForEndpoint conf endpoint poolName).
Proof.
  unfold EnvListForEndpoint, config_GetString, SysLogPort, config_GetInt, rangeMap.
  repeat first [apply getToken_no_remove | emits_step].
Qed.

(** X10: without [relaunch], [CreateContainer] never asks for the removal of a
    container, on any path and whatever the outside answers. *)
Theorem CreateContainer_never_removes_without_relaunch endpoint poolName :
  emits (fun e => isRemove e = false) (CreateContainer endpoint poolName false).
Proof.
  unfold CreateContainer, docker_NewClient, LoadConfig, getImage, pullBsImage,
    SaveImage, client_PullImage, collection, coll_Close, config_GetString,
    client_CreateContainer, client_StartContainer.
  cbn [andb].
  repeat first [apply EnvListForEndpoint_no_remove | emits_step].
Qed.

(** X11: when [CreateContainer] stops before the options of the container are
    built (no client, configuration not loaded, pull or save failed, no
    token, forbidden name), it returns that error and has made no call on
    a container: nothing was created, removed or started. *)
Theorem CreateContainer_early_error_touches_no_container
        endpoint poolName relaunch w e :
  (containerSpec endpoint poolName w).1 = Fail e ->
  (CreateContainer endpoint poolName relaunch w).1 = Some e /\
  exists calls,
    trace (CreateContainer endpoint poolName relaunch w).2 = trace w ++ calls /\
    Forall (fun call => isContainerCall call = false) calls.
Proof.
  intros Hspec. rewrite CreateContainer_from_spec.
  destruct (containerSpec_no_container_call endpoint poolName w) as (calls & Ht & Hc).
  destruct (containerSpec endpoint poolName w) as [[[opts hc]|e'] w1];
    cbn [fst snd] in *; [done|].
  injection Hspec as ->. split; [done|]. by exists calls.
Qed.

Lemma CreateContainer_early_error_touches_no_container_witness :
  (CreateContainer "http://n1:4243" "p1" true Sample2.pullRefused).1
  = Some (ErrText "pull access denied").
Proof.
  destruct (CreateContainer_early_error_touches_no_container
              "http://n1:4243" "p1" true Sample2.pullRefused
              (ErrText "pull access denied")) as [H _]; [by vm_compute|].
  exact H.
Defined.

(** X12: the [relaunch] flag matters only when the first creation is refused
    because the container already exists: in every other case
    [CreateContainer] does the same with and without it. *)
Theorem CreateContainer_relaunch_only_on_conflict endpoint poolName w :
  (forall opts hostConfig w1,
     containerSpec endpoint poolName w = (Ok (opts, hostConfig), w1) ->
     o_createContainer (outside w1) (trace w1) <> Fail ErrContainerAlreadyExists) ->
  CreateContainer endpoint poolName true w = CreateContainer endpoint poolName false w.
Proof.
  intros Hfree. rewrite !CreateContainer_from_spec.
  destruct (containerSpec endpoint poolName w) as [[[opts hc]|e] w1] eqn:Hspec;
    [|done].
  specialize (Hfree opts hc w1 eq_refl). cbn zeta. cbn [andb].
  destruct (o_createContainer (outside w1) (trace w1)) as [id|e]; [done|].
  by destruct e.
Qed.

Lemma CreateContainer_relaunch_only_on_conflict_witness :
  CreateContainer "http://n1:4243" "p1" true Sample.fresh
  = CreateContainer "http://n1:4243" "p1" false Sample.fresh.
Proof.
  apply CreateContainer_relaunch_only_on_conflict.
  intros opts hostConfig w1 Hspec. vm_compute in Hspec.
  inversion Hspec; subst. by vm_compute.
Defined.

(** ** Storage sessions are closed *)

Lemma oneSession_intro inside :
  Forall (fun e => isConnCall e = false) inside ->
  oneSession (EvDbConn :: inside ++ [EvDbClose]).
Proof. intros H. by exists inside. Qed.

(** X13: every function that opens a storage session closes it, on every path:
    once the connection is made, the calls [SaveImage], [SaveEnvs],
    [LoadConfig] and [getToken] (with no cached token) add to the trace are
    one session, from the connection to the close, with no other connection
    inside. *)
Theorem storage_sessions_are_closed w :
  o_dbConn (outside w) (trace w) = None ->
  (forall digest,
     exists calls, trace (SaveImage digest w).2 = trace w ++ calls /\
                   oneSession calls) /\
  (forall envMap poolEnvMap,
     exists calls, trace (SaveEnvs envMap poolEnvMap w).2 = trace w ++ calls /\
                   oneSession calls) /\
  (exists calls, trace (LoadConfig w).2 = trace w ++ calls /\ oneSession calls) /\
  (forall conf, Token conf = "" ->
     exists calls, trace (getToken conf w).2 = trace w ++ calls /\
                   oneSession calls).
Proof.
  intros Hconn. split; [|split; [|split]].
  - intros digest. rewrite SaveImage_run. cbn zeta. rewrite Hconn.
    exists (EvDbConn :: [EvUpsertId [SetImage digest]] ++ [EvDbClose]).
    split; [|apply oneSession_intro; by repeat constructor].
    destruct (o_storeFault _ _); cbn [snd record setStore trace];
      by rewrite <- !app_assoc.
  - intros envMap poolEnvMap. rewrite SaveEnvs_run. cbn zeta. rewrite Hconn.
    eexists (EvDbConn :: [EvUpsertId _] ++ [EvDbClose]).
    split; [|apply oneSession_intro; by repeat constructor].
    destruct (o_storeFault _ _); cbn [snd record setStore trace];
      by rewrite <- !app_assoc.
  - rewrite LoadConfig_run. cbn zeta. rewrite Hconn.
    exists (EvDbConn :: [EvFindId] ++ [EvDbClose]).
    split; [|apply oneSession_intro; by repeat constructor].
    destruct (o_storeFault _ _); cbn [snd record trace];
      by rewrite <- !app_assoc.
  - intros conf Htok.
    destruct (o_appLogin (outside w) (trace w ++ [EvDbConn])) as [token|e] eqn:Hlogin.
    + rewrite (getToken_fresh conf w token Htok Hconn Hlogin). cbn zeta.
      match goal with |- context [coll_Upsert ?s ?u ?w2] =>
        pose proof (tokenUpsert_conditional token w2) as Hup;
        destruct (coll_Upsert s u w2) as [[e|] up]
      end; destruct Hup as (_ & Htr & _); cbn [record trace] in Htr.
      * destruct (IsDup e).
        -- pose proof (FindId_run (record (EvLogout token) up)) as (Hf & _).
           destruct (coll_FindId_One _) as [found w5].
           cbn [fst snd record trace] in *.
           eexists (EvDbConn :: [_; _; _; _] ++ [EvDbClose]).
           split; [by rewrite Hf, Htr, <- !app_assoc|].
           apply oneSession_intro; by repeat constructor.
        -- cbn [fst snd record trace].
           eexists (EvDbConn :: [_; _; _] ++ [EvDbClose]).
           split; [by rewrite Htr, <- !app_assoc|].
           apply oneSession_intro; by repeat constructor.
      * cbn [fst snd record trace].
        eexists (EvDbConn :: [_; _] ++ [EvDbClose]).
        split; [by rewrite Htr, <- !app_assoc|].
        apply oneSession_intro; by repeat constructor.
    + unfold getToken. rewrite decide_False by (by intros []).
      unfold bind, ret, collection, AppLogin, app_InternalAppName, coll_Close.
      cbn [outside record trace]. rewrite Hconn. cbn. rewrite Hlogin.
      cbn [snd record trace].
      eexists (EvDbConn :: [_] ++ [EvDbClose]).
      split; [by rewrite <- !app_assoc|].
      apply oneSession_intro; by repeat constructor.
Qed.

Lemma storage_sessions_are_closed_witness :
  exists calls, trace (LoadConfig Sample.fresh).2 = trace Sample.fresh ++ calls /\
                oneSession calls.
Proof.
  destruct (storage_sessions_are_closed Sample.fresh eq_refl) as (_ & _ & H & _).
  exact H.
Defined.

(** ** Failures leave the record alone *)

Lemma getToken_error_changes_nothing conf w e :
  (getToken conf w).1.1 = Fail e ->
  store (getToken conf w).2 = store w /\ (getToken conf w).1.2 = conf.
Proof.
  destruct (decide (Token conf ≠ "")) as [Hne|Hemp].
  { by rewrite getToken_cached. }
  apply dec_stable in Hemp.
  destruct (o_dbConn (outside w) (trace w)) as [e0|] eqn:Hconn.
  { unfold getToken. rewrite decide_False by (by intros []).
    unfold bind, ret, collection. by rewrite Hconn. }
  destruct (o_appLogin (outside w) (trace w ++ [EvDbConn])) as [token|e0] eqn:Hlogin.
  - rewrite (getToken_fresh conf w token Hemp Hconn Hlogin). cbn zeta.
    match goal with |- context [coll_Upsert ?s ?u ?w2] =>
      pose proof (tokenUpsert_conditional token w2) as Hup;
      destruct (coll_Upsert s u w2) as [[e1|] up]
    end; destruct Hup as (_ & _ & _ & _ & Hkeep & _); [|done].
    cbn [record store] in Hkeep. destruct (IsDup e1).
    + pose proof (FindId_run (record (EvLogout token) up)) as (_ & Hs & _).
      destruct (coll_FindId_One _) as [[c|e2] w5]; cbn [fst snd record store] in *;
        [done|]. intros _. by rewrite Hs, Hkeep.
    + cbn [fst snd record store]. intros _. by rewrite Hkeep.
  - unfold getToken. rewrite decide_False by (by intros []).
    unfold bind, ret, collection, AppLogin, app_InternalAppName, coll_Close.
    cbn [outside record trace]. rewrite Hconn. cbn. by rewrite Hlogin.
Qed.

(** X14: a write that returns an error has written nothing: after a failed
    [SaveImage], [SaveEnvs] or [pullBsImage] the stored record is as it
    was, and after a failed [getToken] so are the record and the receiver. *)
Theorem failed_writes_change_nothing w e :
  (forall digest, (SaveImage digest w).1 = Some e ->
     store (SaveImage digest w).2 = store w) /\
  (forall envMap poolEnvMap, (SaveEnvs envMap poolEnvMap w).1 = Some e ->
     store (SaveEnvs envMap poolEnvMap w).2 = store w) /\
  (forall image endpoint, (pullBsImage image endpoint w).1 = Some e ->
     store (pullBsImage image endpoint w).2 = store w) /\
  (forall conf, (getToken conf w).1.1 = Fail e ->
     store (getToken conf w).2 = store w /\ (getToken conf w).1.2 = conf).
Proof.
  assert (forall digest w, (SaveImage digest w).1 = Some e ->
            store (SaveImage digest w).2 = store w) as Himage.
  { intros digest w0. rewrite SaveImage_run. cbn zeta.
    destruct (o_dbConn _ _); [done|]. by destruct (o_storeFault _ _). }
  split; [intros digest; apply Himage|]. split; [|split].
  - intros envMap poolEnvMap. rewrite SaveEnvs_run. cbn zeta.
    destruct (o_dbConn _ _); [done|]. by destruct (o_storeFault _ _).
  - intros image endpoint. unfold pullBsImage, bind, ret, docker_NewClient,
      client_PullImage.
    destruct (o_newClient _ _); [done|].
    destruct (o_pullImage _ _) as [output|e0]; [|done].
    intros Hfail. by rewrite (Himage _ _ Hfail).
  - intros conf. apply getToken_error_changes_nothing.
Qed.

Lemma failed_writes_change_nothing_witness :
  (getToken Sample.tokenless Sample.failingStore).1.1
  = Fail (ErrText "no reachable servers") /\
  store (getToken Sample.tokenless Sample.failingStore).2 = None.
Proof.
  split; [reflexivity|].
  destruct (failed_writes_change_nothing Sample.failingStore
              (ErrText "no reachable servers")) as (_ & _ & _ & H).
  destruct (H Sample.tokenless eq_refl) as [-> _]. reflexivity.
Defined.

(** ** One token for all *)

(** X15: the first writer wins.  With a storage that does not fail and a record
    that has no token yet, two callers that hold no token call [getToken]
    one after the other, each being issued a token of its own: both get the
    token of the first, which is the one stored, and the token issued to
    the second is logged out. *)
Theorem getToken_first_writer_wins conf1 conf2 w token1 token2 :
  soundStorage (outside w) -> tokenFree (store w) ->
  Token conf1 = "" -> Token conf2 = "" -> token1 <> "" ->
  o_appLogin (outside w) (trace w ++ [EvDbConn]) = Ok token1 ->
  o_appLogin (outside w) (trace (getToken conf1 w).2 ++ [EvDbConn]) = Ok token2 ->
  let first := getToken conf1 w in
  let second := getToken conf2 first.2 in
  first.1 = (Ok token1, withToken conf1 token1) /\
  second.1.1 = Ok token1 /\
  Token second.1.2 = token1 /\
  store second.2 ≫= doc_token = Some token1 /\
  EvLogout token2 ∈ trace second.2 /\
  EvLogout token1 ∉ drop (List.length (trace w)) (trace first.2).
Proof.
  intros [Hconn Hfault] Hfree Ht1 Ht2 Hne Hlogin1 Hlogin2. cbn zeta.
  pose proof (getToken_fresh conf1 w token1 Ht1 (Hconn _) Hlogin1) as Hrun1.
  cbn zeta in Hrun1. rewrite Hrun1 in Hlogin2 |- *. clear Hrun1.
  match goal with |- context [coll_Upsert ?s ?u ?w2] =>
    pose proof (tokenUpsert_conditional token1 w2) as Hup;
    destruct (coll_Upsert s u w2) as [err1 up1]
  end.
  destruct Hup as (Hout1 & Htr1 & Hok1 & Hset1 & _).
  cbn [outside record store trace] in *.
  assert (err1 = None) as -> by (by apply Hok1).
  specialize (Hset1 eq_refl). cbn [fst snd record trace] in *.
  set (w1 := record EvDbClose up1) in *.
  assert (outside w1 = outside w) as Ho1 by done.
  assert (o_dbConn (outside w1) (trace w1) = None) as Hconn2
    by (rewrite Ho1; apply Hconn).
  assert (o_appLogin (outside w1) (trace w1 ++ [EvDbConn]) = Ok token2) as Hl2
    by (by rewrite Ho1).
  rewrite (getToken_fresh conf2 w1 token2 Ht2 Hconn2 Hl2). cbn zeta.
  match goal with |- context [coll_Upsert ?s ?u ?w2] =>
    pose proof (tokenUpsert_conditional token2 w2) as Hup;
    destruct (coll_Upsert s u w2) as [err2 up2]
  end.
  destruct Hup as (Hout2 & Htr2 & _ & _ & Hkeep2 & Hdup2).
  cbn [outside record store trace] in *.
  destruct Hdup2 as (e & -> & Hdup).
  { rewrite Ho1. apply Hfault. }
  { subst w1. cbn [record store]. rewrite Hset1. unfold tokenFree. cbn.
    by intros [?|[= ?]]. }
  rewrite Hdup. specialize (Hkeep2 ltac:(done)).
  pose proof (FindId_run (record (EvLogout token2) up2)) as (Hf & Hs & _ & Hfound).
  specialize (Hfound (applyUpdate (default emptyDoc (store w)) (SetToken token1))).
  cbn [outside record store trace] in Hfound.
  rewrite Hout2, Ho1, Hkeep2 in Hfound. subst w1. cbn [record store] in Hfound.
  specialize (Hfound (Hfault _) Hset1).
  destruct (coll_FindId_One _) as [found w5]. cbn [fst snd record store trace] in *.
  subst found. cbn.
  split; [done|]. split; [done|]. split; [done|]. split.
  { rewrite Hs, Hkeep2. by rewrite Hset1. }
  split.
  { rewrite Hf. rewrite !elem_of_app, !elem_of_cons. tauto. }
  rewrite Htr1, <- !app_assoc, drop_app_length. cbn.
  rewrite !not_elem_of_cons. repeat split; try done. apply not_elem_of_nil.
Qed.

Lemma getToken_first_writer_wins_witness :
  let second :=
    getToken Sample.tokenless
             (getToken Sample.tokenless Sample2.twoCallers).2 in
  second.1.1 = Ok "tok1" /\
  EvLogout "tok2" ∈ trace second.2.
Proof.
  assert (soundStorage (outside Sample2.twoCallers)) as Hsound by (by split).
  assert (tokenFree (store Sample2.twoCallers)) as Hfree by (by left).
  assert ("tok1" <> "") as Hne by done.
  assert (o_appLogin (outside Sample2.twoCallers)
            (trace (getToken Sample.tokenless Sample2.twoCallers).2 ++ [EvDbConn])
          = Ok "tok2") as Hlogin by (by vm_compute).
  destruct (getToken_first_writer_wins Sample.tokenless Sample.tokenless
              Sample2.twoCallers "tok1" "tok2" Hsound Hfree eq_refl eq_refl Hne
              eq_refl Hlogin) as (_ & Hsecond & _ & _ & Hout & _).
  by split.
Defined.

(** ** What [RecreateContainers] returns *)





(** ** Which overrides reach the environment *)

(** X17: after the four computed entries the list holds the global overrides,
    then those of the node's pool.  A global name appears exactly when the
    last entry the configuration has for it carries a value, and with that
    value; likewise for the pool's names among the entries given for that
    pool.  A pool the configuration does not name adds nothing, and the
    overrides of other pools never appear. *)
Theorem EnvListForEndpoint_overrides conf endpoint poolName w token :
  fairOutside (outside w) ->
  (getToken conf w).1.1 = Ok token ->
  hasForbidden (afterToken conf w) = false ->
  let conf' := afterToken conf w in
  exists globals locals,
    (EnvListForEndpoint conf endpoint poolName w).1.1
    = Ok (seedEnv (outside w) endpoint token
          ++ map envEntry globals ++ map envEntry locals) /\
    NoDup globals.*1 /\ NoDup locals.*1 /\
    (forall name value,
       (name, value) ∈ globals <->
       lastFor name (Envs conf') ≫= written = Some value) /\
    (forall name value,
       (name, value) ∈ locals <->
       lastFor name (poolEntries poolName (Pools conf')) ≫= written = Some value) /\
    (poolName ∉ map pool_Name (Pools conf') -> locals = []).
Proof.
  intros [Hrange _] Htoken Hclean conf'.
  rewrite EnvListForEndpoint_run. cbn zeta. fold conf'. rewrite Htoken.
  change (hasForbidden conf' = false) in Hclean.
  rewrite UpdateEnvMaps_run, (firstForbidden_None _ Hclean), (cutPatch_id _ Hclean).
  cbn [fmap option_fmap option_map fst].
  set (envMap := applyEnvs (Envs conf') ∅).
  set (poolMap := default ∅ (foldl applyPool ∅ (Pools conf') !! poolName)).
  exists (o_range (outside w) _ (map_to_list envMap)),
         (o_range (outside w) _ (map_to_list poolMap)).
  assert (forall name, poolMap !! name
                       = lastFor name (poolEntries poolName (Pools conf')) ≫= written)
    as Hpool.
  { intros name. subst poolMap. rewrite applyPools_lookup.
    destruct (decide (poolName ∈ map pool_Name (Pools conf'))) as [Hin|Hnot].
    - cbn [default id]. rewrite applyEnvs_lookup, lookup_empty. cbn [default id].
      by destruct (lastFor _ _).
    - rewrite lookup_empty. cbn [default id].
      by rewrite lookup_empty, (poolEntries_unnamed _ _ Hnot). }
  split; [by rewrite app_assoc|].
  split; [rewrite (Hrange _); apply NoDup_fst_map_to_list|].
  split; [rewrite (Hrange _); apply NoDup_fst_map_to_list|].
  split; [|split].
  - intros name value. rewrite (Hrange _), elem_of_map_to_list. subst envMap.
    rewrite applyEnvs_lookup, lookup_empty. by destruct (lastFor _ _).
  - intros name value. by rewrite (Hrange _), elem_of_map_to_list, Hpool.
  - intros Hnot. apply Permutation_nil. rewrite (Hrange _).
    assert (poolMap = ∅) as ->; [|by rewrite map_to_list_empty].
    apply map_eq. intros name.
    by rewrite Hpool, (poolEntries_unnamed _ _ Hnot), lookup_empty.
Qed.

Lemma EnvListForEndpoint_overrides_witness :
  exists globals locals,
    (EnvListForEndpoint Sample.plain "http://n1:4243" "p9" Sample.fresh).1.1
    = Ok (seedEnv Sample.calm "http://n1:4243" "tok0"
          ++ map envEntry globals ++ map envEntry locals) /\
    ("A", "1") ∈ globals /\ locals = [].
Proof.
  assert (fairOutside (outside Sample.fresh)) as Hfair by (by split).
  destruct (EnvListForEndpoint_overrides Sample.plain "http://n1:4243" "p9"
              Sample.fresh "tok0" Hfair eq_refl eq_refl)
    as (globals & locals & Hresult & _ & _ & Hg & _ & Hnone).
  exists globals, locals. split; [exact Hresult|]. split.
  - by apply Hg.
  - apply Hnone. unfold afterToken. rewrite getToken_cached by done. cbn.
    rewrite !not_elem_of_cons. split; [done | apply not_elem_of_nil].
Defined.

(** ** The platform endpoint *)

Lemma append_assoc s t u : (s +:+ t) +:+ u = s +:+ (t +:+ u).
Proof.
  induction s as [|a s IH]; [done|].
  change (String a s +:+ t) with (String a (s +:+ t)).
  change (String a (s +:+ t) +:+ u) with (String a ((s +:+ t) +:+ u)).
  change (String a s +:+ (t +:+ u)) with (String a (s +:+ (t +:+ u))).
  by rewrite IH.
Qed.

Lemma append_nil_r s : s +:+ "" = s.
Proof.
  induction s as [|a s IH]; [done|].
  change (String a s +:+ "") with (String a (s +:+ "")). by rewrite IH.
Qed.

Lemma rev_app_spec s t : String.rev_app s t = String.rev s +:+ t.
Proof.
  revert t. induction s as [|a s IH]; intros t; [done|].
  unfold String.rev. cbn [String.rev_app].
  rewrite (IH (String a t)), (IH (String a "")), append_assoc. done.
Qed.

Lemma rev_cons a s : String.rev (String a s) = String.rev s +:+ String a "".
Proof. unfold String.rev at 1. cbn [String.rev_app]. apply rev_app_spec. Qed.

Lemma rev_append s t : String.rev (s +:+ t) = String.rev t +:+ String.rev s.
Proof.
  induction s as [|a s IH].
  - change ("" +:+ t) with t. change (String.rev "") with "".
    by rewrite append_nil_r.
  - change (String a s +:+ t) with (String a (s +:+ t)).
    by rewrite !rev_cons, IH, append_assoc.
Qed.

Lemma rev_involutive s : String.rev (String.rev s) = s.
Proof.
  induction s as [|a s IH]; [done|].
  by rewrite rev_cons, rev_append, IH.
Qed.

Lemma snoc_inj s t a b :
  s +:+ String a "" = t +:+ String b "" -> a = b.
Proof.
  revert t. induction s as [|c s IH]; intros [|d t].
  - by intros [= ->].
  - change ("" +:+ String a "") with (String a "").
    change (String d t +:+ String b "") with (String d (t +:+ String b "")).
    intros [= _ H]. by destruct t.
  - change ("" +:+ String b "") with (String b "").
    change (String c s +:+ String a "") with (String c (s +:+ String a "")).
    intros [= _ H]. by destruct s.
  - change (String c s +:+ String a "") with (String c (s +:+ String a "")).
    change (String d t +:+ String b "") with (String d (t +:+ String b "")).
    intros [= _ H]. by apply (IH t).
Qed.

Lemma dropLeading_split c s :
  exists k, s = replicateByte k c +:+ dropLeading c s /\
            forall s', dropLeading c s <> String c s'.
Proof.
  induction s as [|a s (k & IH & Hhead)].
  - exists 0. by split.
  - cbn [dropLeading]. destruct (decide (a = c)) as [->|Hne].
    + exists (S k). split; [|done]. cbn [replicateByte].
      change (String c (replicateByte k c) +:+ ?t)
        with (String c (replicateByte k c +:+ t)). by rewrite <- IH.
    + exists 0. split; [done|]. by intros s' [= ? _].
Qed.

Lemma replicateByte_snoc k c :
  replicateByte k c +:+ String c "" = String c (replicateByte k c).
Proof.
  induction k as [|k IH]; [done|]. cbn [replicateByte].
  change (String c (replicateByte k c) +:+ ?t)
    with (String c (replicateByte k c +:+ t)). by rewrite IH.
Qed.

Lemma rev_replicateByte k c : String.rev (replicateByte k c) = replicateByte k c.
Proof.
  induction k as [|k IH]; [done|]. cbn [replicateByte].
  by rewrite rev_cons, IH, replicateByte_snoc.
Qed.

(** [strings.TrimRight] with a one-byte cutset removes a run of that byte
    from the end, and what it returns does not end with it. *)
Lemma TrimRight_spec s c :
  exists k, s = TrimRight s c +:+ replicateByte k c /\
            forall t, TrimRight s c <> t +:+ String c "".
Proof.
  unfold TrimRight.
  destruct (dropLeading_split c (String.rev s)) as (k & Hsplit & Hhead).
  exists k. split.
  - rewrite <- (rev_involutive s) at 1. rewrite Hsplit at 1.
    by rewrite rev_append, rev_replicateByte.
  - intros t Heq. destruct (dropLeading c (String.rev s)) as [|a x] eqn:E.
    + by destruct t.
    + rewrite rev_cons in Heq. apply snoc_inj in Heq as ->. by apply (Hhead x).
Qed.

(** X18: the second entry of a list [EnvListForEndpoint] returns is
    [TSURU_ENDPOINT=] followed by the host (with its scheme) whose trailing
    slashes are replaced by exactly one. *)
Theorem platform_endpoint_one_slash conf endpoint poolName w envList :
  (EnvListForEndpoint conf endpoint poolName w).1.1 = Ok envList ->
  exists base k,
    envList !! 1 = Some ("TSURU_ENDPOINT=" +:+ base +:+ "/") /\
    hostWithScheme (outside w) = base +:+ replicateByte k "/" /\
    forall t, base <> t +:+ "/".
Proof.
  rewrite EnvListForEndpoint_run. cbn zeta.
  destruct (getToken conf w).1.1 as [token|e]; [|done].
  destruct (UpdateEnvMaps _ ∅ ∅) as [[[e|] envMap] poolEnvMap]; [done|].
  cbn [fst]. intros [= <-].
  destruct (TrimRight_spec (hostWithScheme (outside w)) "/") as (k & Hk & Hend).
  exists (TrimRight (hostWithScheme (outside w)) "/"), k.
  split; [reflexivity | by split].
Qed.

Lemma platform_endpoint_one_slash_witness :
  exists base k,
    (["DOCKER_ENDPOINT=http://n1:4243"; "TSURU_ENDPOINT=http://tsuru.io/";
      "TSURU_TOKEN=tok0"; "SYSLOG_LISTEN_ADDRESS=udp://0.0.0.0:1514"; "A=1"]
       : list string) !! 1
    = Some ("TSURU_ENDPOINT=" +:+ base +:+ "/") /\
    hostWithScheme Sample.calm = base +:+ replicateByte k "/".
Proof.
  destruct (platform_endpoint_one_slash Sample.plain "http://n1:4243" "p9"
              Sample.fresh
              ["DOCKER_ENDPOINT=http://n1:4243"; "TSURU_ENDPOINT=http://tsuru.io/";
               "TSURU_TOKEN=tok0"; "SYSLOG_LISTEN_ADDRESS=udp://0.0.0.0:1514";
               "A=1"]) as (base & k & H1 & H2 & _); [by vm_compute|].
  by exists base, k.
Defined.

(** ** The options of the container *)

Lemma getImage_pure conf w : (getImage conf w).2 = w.
Proof.
  unfold getImage, bind, ret, config_GetString. by destruct (decide _).
Qed.

(** X19: the container [CreateContainer] asks for is always named
    [big-sibling], privileged, on the host network and restarted always.
    The local socket goes both ways or not at all: when one is configured
    it is mounted at [/var/run/docker.sock] and the first entry of the
    environment points [DOCKER_ENDPOINT] to it; otherwise nothing is
    mounted and [DOCKER_ENDPOINT] is the address of the node. *)
Theorem container_options endpoint poolName w opts hostConfig w1 :
  containerSpec endpoint poolName w = (Ok (opts, hostConfig), w1) ->
  let socket := default "" (o_strings (outside w) !! "docker:bs:socket") in
  opts_Name opts = "big-sibling" /\
  opts_HostConfig opts = hostConfig /\
  Privileged hostConfig = true /\
  NetworkMode hostConfig = "host" /\
  RestartPolicy hostConfig = "always" /\
  (socket = "" ->
   Binds hostConfig = [] /\
   head (opts_Env opts) = Some ("DOCKER_ENDPOINT=" +:+ endpoint)) /\
  (socket <> "" ->
   Binds hostConfig = [socket +:+ ":/var/run/docker.sock:rw"] /\
   head (opts_Env opts) = Some "DOCKER_ENDPOINT=unix:///var/run/docker.sock").
Proof.
  unfold containerSpec, bind, ret, docker_NewClient, config_GetString.
  destruct (o_newClient _ _); [done|].
  pose proof (growing_LoadConfig w) as [HoA _].
  destruct (LoadConfig w) as [loaded wA]. cbn [snd] in HoA.
  match goal with |- context [match ?r with Ok _ => _ | Fail _ => _ end] =>
    destruct r as [bsConf|e]; [|done]
  end.
  pose proof (getImage_pure bsConf wA) as Hpure.
  destruct (getImage bsConf wA) as [bsImage wA']. cbn [snd] in Hpure. subst wA'.
  pose proof (growing_pullBsImage bsImage endpoint wA) as [HoB _].
  destruct (pullBsImage bsImage endpoint wA) as [[e|] wB]; [done|].
  cbn [snd] in HoB. rewrite EnvListForEndpoint_run. cbn zeta.
  destruct (getToken bsConf wB).1.1 as [token|e]; [|done].
  destruct (UpdateEnvMaps _ ∅ ∅) as [[[e|] envMap] poolEnvMap]; [done|].
  cbn [fst snd]. intros [= <- <- <-]. cbn zeta.
  cbn [opts_Name opts_HostConfig opts_Env Privileged NetworkMode RestartPolicy Binds].
  rewrite !HoB, !HoA. unfold seedEnv. cbn zeta.
  set (socket := default "" (o_strings (outside w) !! "docker:bs:socket")).
  repeat (split; [done|]).
  split; intros Hs.
  - rewrite decide_False by (by intros []). by rewrite decide_True.
  - rewrite decide_True by done. by rewrite decide_False.
Qed.

Lemma container_options_witness :
  exists opts hostConfig w1,
    containerSpec "http://n1:4243" "p1" Sample.fresh = (Ok (opts, hostConfig), w1) /\
    Binds hostConfig = [] /\
    head (opts_Env opts) = Some "DOCKER_ENDPOINT=http://n1:4243".
Proof.
  destruct (containerSpec "http://n1:4243" "p1" Sample.fresh)
    as [[[opts hostConfig]|e] w1] eqn:Hspec; [|by vm_compute in Hspec].
  exists opts, hostConfig, w1. split; [done|].
  destruct (container_options _ _ _ _ _ _ Hspec) as (_ & _ & _ & _ & _ & H & _).
  by apply H.
Defined.

(** ** A missing record is no error *)

Lemma bind_first_call {A B} (m : M A) (k : A -> M B) w e0 :
  (exists rest, trace (m w).2 = trace w ++ e0 :: rest) ->
  (forall a, growing (k a)) ->
  exists rest, trace (bind m k w).2 = trace w ++ e0 :: rest.
Proof.
  intros [rest Hm] Hk. unfold bind. destruct (m w) as [a w1]. cbn [snd] in Hm.
  destruct (Hk a w1) as (_ & calls & ->). exists (rest ++ calls).
  by rewrite Hm, <- app_assoc.
Qed.

Lemma getImage_outside conf w1 w2 :
  outside w1 = outside w2 -> (getImage conf w1).1 = (getImage conf w2).1.
Proof.
  intros Ho. unfold getImage, bind, ret, config_GetString.
  destruct (decide _); [done|]. cbn. by rewrite Ho.
Qed.

Lemma pullBsImage_first_call image endpoint w :
  o_newClient (outside w) endpoint = None ->
  exists rest,
    trace (pullBsImage image endpoint w).2
    = trace w ++ EvPullImage endpoint image :: rest.
Proof.
  intros Hclient. unfold pullBsImage, bind, ret, docker_NewClient, client_PullImage.
  rewrite Hclient. destruct (o_pullImage _ _) as [output|e].
  - destruct (growing_SaveImage (pinImage image output)
                (record (EvPullImage endpoint image) w)) as (_ & calls & ->).
    exists calls. cbn [record trace]. by rewrite <- app_assoc.
  - by exists [].
Qed.

(** X20: [CreateContainer] takes a record that is not there for an empty
    configuration: after a load that answers [mgo.ErrNotFound] the next
    call is the pull of the image of the configuration file, or of
    [tsuru/bs].  Any other error of the load is returned at once, before
    anything is pulled. *)
Theorem CreateContainer_load_errors endpoint poolName relaunch w :
  o_newClient (outside w) endpoint = None ->
  (forall e, (LoadConfig w).1 = Fail e -> e <> ErrNotFound ->
     CreateContainer endpoint poolName relaunch w = (Some e, (LoadConfig w).2)) /\
  ((LoadConfig w).1 = Fail ErrNotFound ->
   exists rest,
     trace (CreateContainer endpoint poolName relaunch w).2
     = trace (LoadConfig w).2
       ++ EvPullImage endpoint (getImage emptyConfig w).1 :: rest).
Proof.
  intros Hclient. split.
  - intros e Hload Hne. unfold CreateContainer. unfold bind at 1.
    unfold docker_NewClient at 1. rewrite Hclient. unfold bind at 1.
    destruct (LoadConfig w) as [loaded wA]. cbn [fst snd] in *. subst loaded.
    by rewrite decide_True.
  - intros Hload. unfold CreateContainer. unfold bind at 1.
    unfold docker_NewClient at 1. rewrite Hclient. unfold bind at 1.
    pose proof (growing_LoadConfig w) as [HoA _].
    destruct (LoadConfig w) as [loaded wA]. cbn [fst snd] in *. subst loaded.
    rewrite decide_False by (by intros []). unfold bind at 1.
    pose proof (getImage_pure emptyConfig wA) as Hpure.
    rewrite <- (getImage_outside emptyConfig wA w HoA).
    destruct (getImage emptyConfig wA) as [bsImage wA']. cbn [fst snd] in *.
    subst wA'. apply bind_first_call.
    + apply pullBsImage_first_call. by rewrite HoA.
    + intros err. unfold config_GetString, client_CreateContainer,
        client_RemoveContainer, client_StartContainer.
      repeat first [apply growing_EnvListForEndpoint | growing_step].
Qed.

Lemma CreateContainer_load_errors_witness :
  exists rest,
    trace (CreateContainer "http://n1:4243" "p1" true Sample.fresh).2
    = [EvDbConn; EvFindId; EvDbClose; EvPullImage "http://n1:4243" "tsuru/bs"]
      ++ rest.
Proof.
  destruct (CreateContainer_load_errors "http://n1:4243" "p1" true Sample.fresh
              eq_refl) as [_ H].
  destruct (H eq_refl) as [rest Hrest]. exists rest. exact Hrest.
Defined.
